(** * go-torrentapi: the request lifecycle of the TorrentAPI client

    A shallow embedding of [torrentapi.go] (the option-configurable client):
    the token, the fluent query builder, the transport loop with its
    rate-limit retries, the response interpreter and the call controller.

    - Go [int], [time.Time] and [time.Duration] are [Z]; the one place where
      the width of [int] can be observed, the attempt counter of
      [makeRequest], wraps at 64 bits.
    - Go strings are [string] (sequences of bytes); [fmt.Sprintf] with only
      [%s] and [%d] verbs is concatenation.
    - A slice that may be nil is an [option (list _)]: [None] is the nil
      slice, [Some []] the empty slice that is not nil.
    - A Go [error] is the inductive [error]; every constructor is one place
      of the source where an error value is built.
    - The network and the standard library decoders are the environment
      [Env]; the effects of a method are explicit: it takes the [World],
      which holds the clock and the trace of what was done, and returns the
      new one.  The clock moves when a request is sent, by what the
      environment says that request takes, and in [time.Sleep].  Methods
      with a pointer receiver that assign to fields return the new [API]
      value.
    - Names that Rocq would confuse are told apart by a final underscore:
      the fields [Category_] and [Ranked_] of a result (the builder has
      methods of those names) and the method [List_]; the field [Title] of
      [EpisodeInfo] is [EpisodeTitle] and the field [EpisodeInfo] of a
      result is [Episode]. *)

From Stdlib Require Import ZArith List String Ascii Bool Lia.
From Stdlib Require Import DecimalString.
Import ListNotations.

Local Open Scope string_scope.
Local Open Scope list_scope.
Local Open Scope Z_scope.

(** Concatenation of strings, the [+] and [+=] of Go. *)
Local Infix "+++" := String.append (right associativity, at level 60).

(** ** Constants *)

Definition DefaultAPIURL : string := "https://torrentapi.org/pubapi_v2.php?".

(** Durations are counted in nanoseconds, as [time.Duration] is. *)
Definition Second : Z := 1000000000.
Definition DefaultTokenExpiration : Z := Second * 890.
Definition DefaultRequestDelay : Z := Second * 2.
Definition DefaultMaxRetries : Z := 10.

Definition tokenExpiredCode : Z := 4.
Definition noResultsCode : Z := 20.
Definition imdbNotFound : Z := 10.

Definition StatusOK : Z := 200.
Definition StatusTooManyRequests : Z := 429.

(** ** Data model *)

(** [Token]: the credential and the instant at which it expires. *)
Record Token := mkToken {
  Token_Token : string;
  Token_Expires : Z
}.

(** The value of [var token Token]; the zero [time.Time] is instant [0]. *)
Definition zeroToken : Token := {| Token_Token := ""; Token_Expires := 0 |}.

Record EpisodeInfo := mkEpisodeInfo {
  ImDB : string;
  TvDB : string;
  TvRage : string;
  TheMovieDb : string;
  AirDate : string;
  SeasonNum : string;
  EpisodeNum : string;
  EpisodeTitle : string
}.

Record TorrentResult := mkTorrentResult {
  Title : string;
  Filename : string;
  Category_ : string;
  Download : string;
  Seeders : Z;
  Leechers : Z;
  Size : Z;
  PubDate : string;
  Ranked_ : Z;
  InfoPage : string;
  Episode : EpisodeInfo
}.

(** [TorrentResults] is a slice: [None] is nil. *)
Definition TorrentResults : Type := option (list TorrentResult).

(** [APIResponse]: [Torrents] is a [json.RawMessage], nil when the key is
    absent from the envelope. *)
Record APIResponse := mkAPIResponse {
  Torrents : option string;
  Error : string;
  ErrorCode : Z
}.

Definition zeroAPIResponse : APIResponse :=
  {| Torrents := None; Error := ""; ErrorCode := 0 |}.

(** [API]; the [client] field is the environment below. *)
Record API := mkAPI {
  Query : string;
  APIToken : Token;
  categories : list Z;
  appID : string;
  reqDelay : Z;
  tokenExpiration : Z;
  url : string;
  maxRetries : Z
}.

Definition set_Query (a : API) (q : string) : API :=
  mkAPI q (APIToken a) (categories a) (appID a) (reqDelay a)
        (tokenExpiration a) (url a) (maxRetries a).

Definition set_APIToken (a : API) (t : Token) : API :=
  mkAPI (Query a) t (categories a) (appID a) (reqDelay a)
        (tokenExpiration a) (url a) (maxRetries a).

Definition set_categories (a : API) (c : list Z) : API :=
  mkAPI (Query a) (APIToken a) c (appID a) (reqDelay a)
        (tokenExpiration a) (url a) (maxRetries a).

Definition set_url (a : API) (u : string) : API :=
  mkAPI (Query a) (APIToken a) (categories a) (appID a) (reqDelay a)
        (tokenExpiration a) u (maxRetries a).

Definition set_tokenExpiration (a : API) (d : Z) : API :=
  mkAPI (Query a) (APIToken a) (categories a) (appID a) (reqDelay a)
        d (url a) (maxRetries a).

Definition set_reqDelay (a : API) (d : Z) : API :=
  mkAPI (Query a) (APIToken a) (categories a) (appID a) d
        (tokenExpiration a) (url a) (maxRetries a).

Definition set_maxRetries (a : API) (r : Z) : API :=
  mkAPI (Query a) (APIToken a) (categories a) (appID a) (reqDelay a)
        (tokenExpiration a) (url a) r.

(** ** Errors *)

(** An error value made by the standard library; only its text matters. *)
Definition lib_error : Type := string.

(** One constructor per place where the source builds or forwards an error. *)
Inductive error : Type :=
| expiredTokenError (s : string)
    (* the pointer to an expiredTokenError with text s *)
| NewRequestError (e : lib_error)
    (* makeRequest: failed to create http request *)
| ClientError (e : lib_error)
    (* makeRequest: the error of a.client.Do, returned as it is *)
| MaxAttemptsError
    (* makeRequest: maximum number of attempts reached *)
| StatusError (code : Z) (status : string)
    (* makeRequest: non 200-OK response, with StatusCode and Status *)
| EnvelopeDecodeError (e : lib_error)
    (* getResults: the error of decoding the envelope, returned as it is *)
| TokenDecodeError (e : lib_error)
    (* renewToken: error decoding token *)
| UnmarshalError (query : string) (e : lib_error)
    (* processResponse: the query and the text of the Unmarshal error *)
| APIError (query : string) (msg : string) (code : Z)
    (* processResponse: the query, apiResponse.Error and the error code *)
| UnknownError (query : string) (resp : APIResponse)
    (* processResponse: unknown error, with the query and the response *)
| RenewingError (e : error).
    (* New: error renewing token *)

(** The type assertion of [call]: is the error an [expiredTokenError]? *)
Definition is_expiredTokenError (e : error) : bool :=
  match e with
  | expiredTokenError _ => true
  | _ => false
  end.

(** ** Token *)

(** [time.Time.After]: strictly later. *)
Definition After (t u : Z) : bool := u <? t.

(** [IsValid], with the reading of [time.Now()] as [now]. *)
Definition IsValid (now : Z) (t : Token) : bool :=
  if String.eqb (Token_Token t) "" then false
  else if After now (Token_Expires t) then false
  else true.

(** ** Environment and world *)

(** The status line and the body of an [http.Response]. *)
Record Response := mkResponse {
  StatusCode : Z;
  Status : string;
  Body : string
}.

(** What [a.client.Do] gives: an error, or a response. *)
Inductive DoResult : Type :=
| DoFail (e : lib_error)
| DoOk (r : Response).

(** What the code takes from outside the repository.

    The decoders of [encoding/json] write through the pointer they are
    given and return an error or nil, so each takes the value the target
    holds and returns the value it leaves there with the error.  The
    [Expires] field of a [Token] has the tag [json:"-"]: the token decoder
    can write the credential only.

    [client_Do n u] is the outcome of the [n]-th request the client sends
    (counted from 0), asked for URL [u]: the server is any sequence of
    outcomes, and may look at the URL.  [elapsed n] is the time that request
    takes. *)
Record Env := mkEnv {
  url_QueryEscape : string -> string;
  http_NewRequest : string -> option lib_error;
  client_Do : nat -> string -> DoResult;
  elapsed : nat -> Z;
  decode_APIResponse : string -> APIResponse -> APIResponse * option lib_error;
  decode_Token : string -> string -> string * option lib_error;
  json_Unmarshal : string -> TorrentResults -> TorrentResults * option lib_error
}.

(** What a run leaves behind, in order.  [EvGetResults] and [EvRenewToken]
    mark the entry into the two methods of that name. *)
Inductive Event : Type :=
| EvDo (u : string)
| EvSleep (d : Z)
| EvGetResults (query : string)
| EvRenewToken.

Record World := mkWorld {
  clock : Z;
  trace : list Event
}.

Definition is_EvDo (e : Event) : bool :=
  match e with EvDo _ => true | _ => false end.

Definition is_EvGetResults (e : Event) : bool :=
  match e with EvGetResults _ => true | _ => false end.

Definition is_EvRenewToken (e : Event) : bool :=
  match e with EvRenewToken => true | _ => false end.

(** Requests sent so far. *)
Definition sent (w : World) : nat := List.length (filter is_EvDo (trace w)).

Definition record (ev : Event) (w : World) : World :=
  {| clock := clock w; trace := trace w ++ [ev] |}.

(** [time.Sleep d]: returns at once when [d] is not positive. *)
Definition time_Sleep (d : Z) (w : World) : World :=
  {| clock := clock w + Z.max 0 d; trace := trace w ++ [EvSleep d] |}.

(** [strconv.Itoa], and the [%d] verb on an [int]. *)
Definition Itoa (n : Z) : string := NilZero.string_of_int (Z.to_int n).

(** [strings.Join]. *)
Definition Join (elems : list string) (sep : string) : string :=
  String.concat sep elems.

(** [strings.HasSuffix]. *)
Definition HasSuffix (s suffix : string) : bool :=
  let n := String.length s in
  let m := String.length suffix in
  (m <=? n)%nat && String.eqb (substring (n - m) m s) suffix.

(** The value of a 64-bit [int] after an operation that overflows. *)
Definition wrap64 (z : Z) : Z := (z + 2 ^ 63) mod 2 ^ 64 - 2 ^ 63.

Section Client.

Variable E : Env.

(** The world after [a.client.Do] was asked for [u]. *)
Definition send (u : string) (w : World) : World :=
  {| clock := clock w + elapsed E (sent w); trace := trace w ++ [EvDo u] |}.

(** ** Query builder *)

Definition SearchString (a : API) (query : string) : API :=
  set_Query a (Query a +++ "&search_string=" +++ url_QueryEscape E query).

Definition Category (a : API) (category : Z) : API :=
  set_categories a (categories a ++ [category]).

Definition SearchTVDB (a : API) (seriesid : string) : API :=
  set_Query a (Query a +++ "&search_tvdb=" +++ seriesid).

Definition SearchIMDb (a : API) (movieid : string) : API :=
  set_Query a (Query a +++ "&search_imdb=" +++ movieid).

Definition SearchTheMovieDb (a : API) (movieid : string) : API :=
  set_Query a (Query a +++ "&search_themoviedb=" +++ movieid).

Definition Format (a : API) (format : string) : API :=
  set_Query a (Query a +++ "&format=" +++ format).

Definition Limit (a : API) (limit : Z) : API :=
  set_Query a (Query a +++ "&limit=" +++ Itoa limit).

Definition Sort (a : API) (sort : string) : API :=
  set_Query a (Query a +++ "&sort=" +++ sort).

Definition Ranked (a : API) (ranked : bool) : API :=
  if ranked then set_Query a (Query a +++ "&ranked=1")
  else set_Query a (Query a +++ "&ranked=0").

Definition MinSeeders (a : API) (minSeed : Z) : API :=
  set_Query a (Query a +++ "&min_seeders=" +++ Itoa minSeed).

Definition MinLeechers (a : API) (minLeech : Z) : API :=
  set_Query a (Query a +++ "&min_leechers=" +++ Itoa minLeech).

(** [initQuery]: [a.categories[:0]] has length zero. *)
Definition initQuery (a : API) : API :=
  set_Query (set_categories a []) "".

(** ** Response interpreter *)

(** [processResponse]; the receiver is read only. *)
Definition processResponse (a : API) (apiResponse : APIResponse)
  : TorrentResults * option error :=
  let data : TorrentResults := None in
  match Torrents apiResponse with
  | Some raw =>
      let (data, err) := json_Unmarshal E raw data in
      match err with
      | Some e => (None, Some (UnmarshalError (Query a) e))
      | None => (data, None)
      end
  | None =>
      if negb (String.eqb (Error apiResponse) "") then
        let ec := ErrorCode apiResponse in
        if ec =? tokenExpiredCode then
          (None, Some (expiredTokenError "expired token"))
        else if ec =? imdbNotFound then (None, None)
        else if ec =? noResultsCode then (None, None)
        else (None, Some (APIError (Query a) (Error apiResponse) ec))
      else (None, Some (UnknownError (Query a) apiResponse))
  end.

(** ** Transport *)

(** The loop of [makeRequest].  [maxAttempts] is the counter of the source,
    decremented first in every iteration.  The loop goes round again only
    when the decremented counter is positive, so [fuel], the number of
    further iterations allowed, never runs out when it starts at that
    counter or above ([makeRequest_loop_fuel]); should it run out, no further
    attempt is made. *)
Fixpoint makeRequest_loop (fuel : nat) (a : API) (query : string)
  (maxAttempts : Z) (w : World) : World * (error + Response) :=
  let maxAttempts := wrap64 (maxAttempts - 1) in
  match http_NewRequest E query with
  | Some e => (w, inl (NewRequestError e))
  | None =>
      let resp := client_Do E (sent w) query in
      let w := send query w in
      match resp with
      | DoFail e => (w, inl (ClientError e))
      | DoOk resp =>
          let st := StatusCode resp in
          if st =? StatusOK then (w, inr resp)
          else if st =? StatusTooManyRequests then
            if maxAttempts >? 0 then
              match fuel with
              | S fuel =>
                  makeRequest_loop fuel a query maxAttempts
                                   (time_Sleep (reqDelay a) w)
              | O => (w, inl MaxAttemptsError)
              end
            else (w, inl MaxAttemptsError)
          else (w, inl (StatusError (StatusCode resp) (Status resp)))
      end
  end.

(** [makeRequest]. *)
Definition makeRequest (a : API) (query : string) (w : World)
  : World * (error + Response) :=
  let maxAttempts := maxRetries a in
  makeRequest_loop (Z.to_nat (wrap64 (maxAttempts - 1))) a query maxAttempts w.

(** [getResults].  With a decoding error the source also returns the
    pointer to the response; its only caller drops it, and so does this. *)
Definition getResults (a : API) (query : string) (w : World)
  : World * (error + APIResponse) :=
  let w := record (EvGetResults query) w in
  let (w, r) := makeRequest a query w in
  match r with
  | inl err => (w, inl err)
  | inr resp =>
      let (apiResponse, err) :=
        decode_APIResponse E (Body resp) zeroAPIResponse in
      match err with
      | Some e => (w, inl (EnvelopeDecodeError e))
      | None => (w, inr apiResponse)
      end
  end.

(** [renewToken]: the token it returns with an error is the variable
    [token] as it stands at that point. *)
Definition renewToken (a : API) (w : World) : World * (Token * option error) :=
  let w := record EvRenewToken w in
  let token := zeroToken in
  let (w, r) :=
    makeRequest a (url a +++ "get_token=get_token&app_id=" +++ appID a) w in
  match r with
  | inl err => (w, (token, Some err))
  | inr resp =>
      let (cred, err) := decode_Token E (Body resp) (Token_Token token) in
      let token := {| Token_Token := cred; Token_Expires := Token_Expires token |} in
      match err with
      | Some e => (w, (token, Some (TokenDecodeError e)))
      | None =>
          (w, ({| Token_Token := Token_Token token;
                  Token_Expires := clock w + tokenExpiration a |}, None))
      end
  end.

(** ** Call controller *)

(** Lines 210 to 216 of [call]: the categories go into the query. *)
Definition finalizeCategories (a : API) : API :=
  if (0 <? List.length (categories a))%nat then
    set_Query a (Query a +++ "&category=" +++ Join (map Itoa (categories a)) ";")
  else a.

(** Line 217 of [call]: the request string. *)
Definition assemble (a : API) : string :=
  url a +++ "&token=" +++ Token_Token (APIToken a) +++ Query a
        +++ "&app_id=" +++ appID a.

(** Lines 203 to 209 of [call]: a token that is not valid is renewed.  The
    error is the one tested on line 206, nil when no renewal was needed. *)
Definition ensureToken (a : API) (w : World) : API * World * option error :=
  if negb (IsValid (clock w) (APIToken a)) then
    let '(w, (token, err)) := renewToken a w in
    (set_APIToken a token, w, err)
  else (a, w, None).

(** [call] without its deferred [initQuery]. *)
Definition call_body (a : API) (w : World)
  : API * World * (TorrentResults * option error) :=
  let '(a, w, err) := ensureToken a w in
  match err with
  | Some e => (a, w, (None, Some e))
  | None =>
      let a := finalizeCategories a in
      let query := assemble a in
      let (w, r) := getResults a query w in
      match r with
      | inl e => (a, w, (None, Some e))
      | inr apiResponse =>
          let (data, err) := processResponse a apiResponse in
          match err with
          | Some e =>
              if is_expiredTokenError e then
                let '(w, (token, err)) := renewToken a w in
                let a := set_APIToken a token in
                match err with
                | Some e => (a, w, (None, Some e))
                | None =>
                    let (w, r) := getResults a query w in
                    match r with
                    | inl e => (a, w, (None, Some e))
                    | inr apiResponse => (a, w, processResponse a apiResponse)
                    end
                end
              else (a, w, (data, err))
          | None => (a, w, (data, err))
          end
      end
  end.

(** [call]: the results are fixed by the [return], then the deferred
    [initQuery] runs. *)
Definition call (a : API) (w : World)
  : API * World * (TorrentResults * option error) :=
  let '(a, w, r) := call_body a w in
  (initQuery a, w, r).

Definition List_ (a : API) (w : World) :=
  call (set_Query a (Query a +++ "&mode=list")) w.

Definition Search (a : API) (w : World) :=
  call (set_Query a (Query a +++ "&mode=search")) w.

(** ** Construction *)

(** The values of the interface [Option]: its method is not exported, so
    they are the results of the four exported constructors. *)
Inductive Option : Type :=
| APIURL (u : string)
| TokenExpiration (d : Z)
| RequestDelay (d : Z)
| MaxRetries (r : Z).

Definition set (o : Option) (a : API) : API :=
  match o with
  | APIURL u => set_url a u
  | TokenExpiration d => set_tokenExpiration a d
  | RequestDelay d => set_reqDelay a d
  | MaxRetries r => set_maxRetries a r
  end.

(** [New]. *)
Definition New (appID : string) (opts : list Option) (w : World)
  : World * (error + API) :=
  let a := {| Query := ""; APIToken := zeroToken; categories := [];
              appID := appID; reqDelay := DefaultRequestDelay;
              tokenExpiration := DefaultTokenExpiration;
              url := DefaultAPIURL; maxRetries := DefaultMaxRetries |} in
  let a := fold_left (fun a o => set o a) opts a in
  let a := if negb (HasSuffix (url a) "?") then set_url a (url a +++ "?") else a in
  let '(w, (token, err)) := renewToken a w in
  match err with
  | Some e => (w, inl (RenewingError e))
  | None => (w, inr (initQuery (set_APIToken a token)))
  end.

End Client.

(** ** Vocabulary of the statements *)

(** The entries of a trace that mark a [getResults] or a [renewToken]. *)
Definition is_call (e : Event) : bool :=
  is_EvGetResults e || is_EvRenewToken e.

Definition calls_of (t : list Event) : list Event := filter is_call t.

(** An event of the transport for the URL [q]. *)
Definition transport_event (q : string) (e : Event) : Prop :=
  e = EvDo q \/ exists d, e = EvSleep d.

(** The most requests one [makeRequest] sends. *)
Definition attempts (a : API) : nat :=
  S (Z.to_nat (wrap64 (maxRetries a - 1))).

(** The world after [k] rate-limited attempts on [q], each followed by the
    sleep. *)
Fixpoint after_429 (E : Env) (a : API) (q : string) (k : nat) (w : World)
  : World :=
  match k with
  | O => w
  | S k => after_429 E a q k (time_Sleep (reqDelay a) (send E q w))
  end.

(** An envelope without payload that reports error code [code]. *)
Definition error_envelope (code : Z) (r : APIResponse) : Prop :=
  Torrents r = None /\ Error r <> "" /\ ErrorCode r = code.

(** The error says what the service reported: its message and its code. *)
Definition carries (e : error) (msg : string) (code : Z) : Prop :=
  exists q, e = APIError q msg code.

(** The ways through [call_body], by the outcome of each step; the index is
    what [call_body] returns. *)
Inductive call_path (E : Env) (a : API) (w : World)
  : API * World * (TorrentResults * option error) -> Prop :=
| path_no_token (a0 : API) (w0 : World) (e : error) :
    ensureToken E a w = (a0, w0, Some e) ->
    call_path E a w (a0, w0, (None, Some e))
| path_transport (a0 : API) (w0 w1 : World) (e : error) :
    ensureToken E a w = (a0, w0, None) ->
    getResults E (finalizeCategories a0) (assemble (finalizeCategories a0)) w0
      = (w1, inl e) ->
    call_path E a w (finalizeCategories a0, w1, (None, Some e))
| path_first (a0 : API) (w0 w1 : World) (r1 : APIResponse)
    (data : TorrentResults) (err : option error) :
    ensureToken E a w = (a0, w0, None) ->
    getResults E (finalizeCategories a0) (assemble (finalizeCategories a0)) w0
      = (w1, inr r1) ->
    processResponse E (finalizeCategories a0) r1 = (data, err) ->
    (forall s, err <> Some (expiredTokenError s)) ->
    call_path E a w (finalizeCategories a0, w1, (data, err))
| path_renew_failed (a0 : API) (w0 w1 w2 : World) (r1 : APIResponse)
    (token : Token) (e : error) :
    ensureToken E a w = (a0, w0, None) ->
    getResults E (finalizeCategories a0) (assemble (finalizeCategories a0)) w0
      = (w1, inr r1) ->
    error_envelope tokenExpiredCode r1 ->
    renewToken E (finalizeCategories a0) w1 = (w2, (token, Some e)) ->
    call_path E a w
      (set_APIToken (finalizeCategories a0) token, w2, (None, Some e))
| path_retry_transport (a0 : API) (w0 w1 w2 w3 : World) (r1 : APIResponse)
    (token : Token) (e : error) :
    ensureToken E a w = (a0, w0, None) ->
    getResults E (finalizeCategories a0) (assemble (finalizeCategories a0)) w0
      = (w1, inr r1) ->
    error_envelope tokenExpiredCode r1 ->
    renewToken E (finalizeCategories a0) w1 = (w2, (token, None)) ->
    getResults E (set_APIToken (finalizeCategories a0) token)
               (assemble (finalizeCategories a0)) w2 = (w3, inl e) ->
    call_path E a w
      (set_APIToken (finalizeCategories a0) token, w3, (None, Some e))
| path_retry (a0 : API) (w0 w1 w2 w3 : World) (r1 r2 : APIResponse)
    (token : Token) :
    ensureToken E a w = (a0, w0, None) ->
    getResults E (finalizeCategories a0) (assemble (finalizeCategories a0)) w0
      = (w1, inr r1) ->
    error_envelope tokenExpiredCode r1 ->
    renewToken E (finalizeCategories a0) w1 = (w2, (token, None)) ->
    getResults E (set_APIToken (finalizeCategories a0) token)
               (assemble (finalizeCategories a0)) w2 = (w3, inr r2) ->
    call_path E a w
      (set_APIToken (finalizeCategories a0) token, w3,
       processResponse E (set_APIToken (finalizeCategories a0) token) r2).

(** ** A scripted service, for examples

    The service of the examples answers the [n]-th request with the [n]-th
    entry of a script, and with a plain 200 after it.  Bodies are short
    words; the decoders of the examples read them as follows. *)

Definition ok200 (body : string) : DoResult :=
  DoOk {| StatusCode := 200; Status := "200 OK"; Body := body |}.

Definition tooMany : DoResult :=
  DoOk {| StatusCode := 429; Status := "429 Too Many Requests";
          Body := "too many requests error" |}.

Definition error500 : DoResult :=
  DoOk {| StatusCode := 500; Status := "500 Internal Server Error";
          Body := "some error" |}.

Definition movie : TorrentResult :=
  {| Title := "Movie"; Filename := ""; Category_ := ""; Download := "";
     Seeders := 0; Leechers := 0; Size := 0; PubDate := ""; Ranked_ := 0;
     InfoPage := "";
     Episode := mkEpisodeInfo "" "" "" "" "" "" "" "" |}.

(** Envelopes: [expired], [noresults], [notfound] and [failure] carry an
    error text and the codes 4, 20, 10 and 5; [empty] and [movie] carry a
    payload; [bad] carries a payload that is not JSON; [bare] is an object
    with neither key; anything else does not decode. *)
Definition sample_decode_APIResponse (body : string) (r : APIResponse)
  : APIResponse * option lib_error :=
  if String.eqb body "expired" then (mkAPIResponse (Torrents r) "token expired" 4, None)
  else if String.eqb body "noresults" then (mkAPIResponse (Torrents r) "no results" 20, None)
  else if String.eqb body "notfound" then (mkAPIResponse (Torrents r) "no imdb" 10, None)
  else if String.eqb body "failure" then (mkAPIResponse (Torrents r) "error" 5, None)
  else if String.eqb body "empty" then (mkAPIResponse (Some "[]") (Error r) (ErrorCode r), None)
  else if String.eqb body "movie" then (mkAPIResponse (Some "[movie]") (Error r) (ErrorCode r), None)
  else if String.eqb body "bad" then (mkAPIResponse (Some "") (Error r) (ErrorCode r), None)
  else if String.eqb body "bare" then (r, None)
  else (r, Some "invalid character").

(** Payloads: [[]] is the empty array, [[movie]] an array of one result,
    [null] leaves the target as it is; anything else is an error. *)
Definition sample_json_Unmarshal (raw : string) (data : TorrentResults)
  : TorrentResults * option lib_error :=
  if String.eqb raw "[]" then (Some [], None)
  else if String.eqb raw "[movie]" then (Some [movie], None)
  else if String.eqb raw "null" then (data, None)
  else (data, Some "unexpected end of JSON input").

(** Token bodies: [some_token] is an object with that token; [twice] is an
    object that gives the token [abc] and then a second [token] key with a
    number, which the decoder reports after it has stored [abc]; anything
    else does not decode. *)
Definition sample_decode_Token (body : string) (cred : string)
  : string * option lib_error :=
  if String.eqb body "some_token" then ("some_token", None)
  else if String.eqb body "twice" then
    ("abc", Some "cannot unmarshal number into Go struct field Token.token of type string")
  else (cred, Some "invalid character").

Definition scripted (script : list DoResult) : Env :=
  {| url_QueryEscape := fun s => s;
     http_NewRequest := fun _ => None;
     client_Do := fun n _ => nth n script (ok200 "bare");
     elapsed := fun _ => 1;
     decode_APIResponse := sample_decode_APIResponse;
     decode_Token := sample_decode_Token;
     json_Unmarshal := sample_json_Unmarshal |}.

(** The receiver of the examples: a token [test] that expires at 100. *)
Definition sample_api : API :=
  {| Query := "&mode=search"; APIToken := mkToken "test" 100; categories := [];
     appID := "test"; reqDelay := 0; tokenExpiration := DefaultTokenExpiration;
     url := "http://127.0.0.1/?"; maxRetries := DefaultMaxRetries |}.

Definition world0 : World := {| clock := 0; trace := [] |}.

(** The responses of a script, for a script without network failures. *)
Definition answers (script : list DoResult) (i : nat) : Response :=
  match nth i script (ok200 "bare") with
  | DoOk r => r
  | DoFail _ => mkResponse 0 "" ""
  end.

(** A case of [TestAPI]: the test server answers the token request of [New]
    and then runs the handlers in turn; [New] is given the URL of the test
    server and no delay between requests, and [call] is run on the result. *)
Definition test_case (handlers : list DoResult)
  : option (TorrentResults * option error) :=
  let E := scripted (ok200 "some_token" :: handlers) in
  let (w, r) := New E "test" [APIURL "http://127.0.0.1:8080"; RequestDelay 0] world0 in
  match r with
  | inl _ => None
  | inr a => Some (snd (call E a w))
  end.

(** ** Further vocabulary *)

(** How a renewal on receiver [a], started in world [w], failed with error
    [e], leaving world [w'] and returning [token]: either the request to the
    token endpoint failed with [e] and the token is the zero token, or the
    request brought a response, the decoder, given the body of that response
    and the empty credential of the zero token, left the credential of
    [token] and failed, [e] wraps the error of the decoder, and the expiry
    of [token] is the zero instant. *)
Definition renewal_failed (E : Env) (a : API) (w w' : World) (token : Token)
  (e : error) : Prop :=
  let q := url a +++ "get_token=get_token&app_id=" +++ appID a in
  (makeRequest E a q (record EvRenewToken w) = (w', inl e) /\
   token = zeroToken) \/
  (exists resp le,
     makeRequest E a q (record EvRenewToken w) = (w', inr resp) /\
     decode_Token E (Body resp) "" = (Token_Token token, Some le) /\
     Token_Expires token = 0 /\
     e = TokenDecodeError le).

(** [performQueryStringTest] of the tests: does [api.Query] end with the
    expected string?  The text is empty when it does. *)
Definition performQueryStringTest (api : API) (expectedResult : string)
  : bool * string :=
  if negb (HasSuffix (Query api) expectedResult) then
    (false,
     "api.Query doesn't ends with requested string: " +++ expectedResult
       +++ ", Query: " +++ Query api)
  else (true, "").

(** The fields of the receiver that only [New] and its options set. *)
Definition same_config (a b : API) : Prop :=
  appID a = appID b /\ reqDelay a = reqDelay b /\
  tokenExpiration a = tokenExpiration b /\ url a = url b /\
  maxRetries a = maxRetries b.

(** What [n] attempts on [q] leave in the trace: [n] requests, with a sleep
    of [d] between one and the next. *)
Definition attempts_trace (q : string) (d : Z) (n : nat) : list Event :=
  match n with
  | O => []
  | S k => List.concat (repeat [EvDo q; EvSleep d] k) ++ [EvDo q]
  end.

(** The errors the transport builds. *)
Definition transport_error (e : error) : Prop :=
  (exists le, e = NewRequestError le) \/ (exists le, e = ClientError le) \/
  e = MaxAttemptsError \/
  (exists code status, e = StatusError code status /\
                       code <> StatusOK /\ code <> StatusTooManyRequests).

(** The service answers the [i]-th request, for [q], with status 429. *)
Definition rate_limited (E : Env) (q : string) (i : nat) : Prop :=
  exists r, client_Do E i q = DoOk r /\ StatusCode r = StatusTooManyRequests.

(** The errors [call] can return, by where they are built. *)
Definition call_error (e : error) : Prop :=
  transport_error e \/
  (exists le, e = EnvelopeDecodeError le) \/
  (exists le, e = TokenDecodeError le) \/
  (exists q le, e = UnmarshalError q le) \/
  (exists q msg code,
     e = APIError q msg code /\ msg <> "" /\
     code <> tokenExpiredCode /\ code <> imdbNotFound /\ code <> noResultsCode) \/
  (exists q r, e = UnknownError q r /\ Torrents r = None /\ Error r = "") \/
  e = expiredTokenError "expired token".

(** ** The superseded client

    The first version of the package: no options, no application
    identifier, no rate-limit loop.  Its [call] reaches the network through
    two package variables, [getRes] and [renewToken], which the tests
    replace; here they are parameters, acting on a state [S] of their
    own. *)
Module Legacy.

Record API := mkAPI {
  Query : string;
  APIToken : Token;
  categories : list Z
}.

(** The errors of this version; [foreign] is an error made outside the
    package, or by a test double. *)
Inductive error : Type :=
| expiredTokenError (s : string)
| UnmarshalError (query : string) (e : lib_error)
| APIError (query : string) (msg : string) (code : Z)
| UnknownError (query : string)
| foreign (e : lib_error).

Definition initQuery (api : API) : API :=
  {| Query := ""; APIToken := APIToken api; categories := [] |}.

Section Call.

Variable S : Type.
Variable time_Now : S -> Z.
Variable time_Sleep : Z -> S -> S.
Variable getRes : string -> S -> S * (error + APIResponse).
Variable renewToken : S -> S * (Token * option error).
Variable apiurl : string.
Variable json_Unmarshal : string -> TorrentResults -> TorrentResults * option lib_error.

(** [processResponse], with the named results [data] and [err]: after a
    failed [Unmarshal] the function still ends in [return data, err]. *)
Definition processResponse (api : API) (apiResponse : APIResponse)
  : TorrentResults * option error :=
  let data : TorrentResults := None in
  match Torrents apiResponse with
  | Some raw =>
      let (data, err) := json_Unmarshal raw data in
      match err with
      | Some e => (data, Some (UnmarshalError (Query api) e))
      | None => (data, None)
      end
  | None =>
      if negb (String.eqb (Error apiResponse) "") then
        if ErrorCode apiResponse =? 4 then
          (None, Some (expiredTokenError "expired token"))
        else if ErrorCode apiResponse =? 10 then (data, None)
        else if ErrorCode apiResponse =? 20 then (data, None)
        else (data, Some (APIError (Query api) (Error apiResponse)
                                   (ErrorCode apiResponse)))
      else (data, Some (UnknownError (Query api)))
  end.

(** The categories go into the query, as in the later version. *)
Definition finalizeCategories (api : API) : API :=
  if (0 <? List.length (categories api))%nat then
    {| Query := Query api +++ "&category="
                  +++ Join (map Itoa (categories api)) ";";
       APIToken := APIToken api; categories := categories api |}
  else api.

(** [call].  There is no [defer]: [initQuery] is the statement before the
    last [return], and the four bare [return]s above it leave without it.
    With an error [getRes] also returns a response; [call] drops it. *)
Definition call (api : API) (s : S) : API * S * (TorrentResults * option error) :=
  let '(api, s, err) :=
    if negb (IsValid (time_Now s) (APIToken api)) then
      let '(s, (token, err)) := renewToken s in
      let api := {| Query := Query api; APIToken := token;
                    categories := categories api |} in
      match err with
      | Some e => (api, s, Some e)
      | None => (api, time_Sleep (2 * Second) s, None)
      end
    else (api, s, None) in
  match err with
  | Some e => (api, s, (None, Some e))
  | None =>
      let api := finalizeCategories api in
      let query := apiurl +++ "&token=" +++ Token_Token (APIToken api)
                          +++ Query api in
      let (s, r) := getRes query s in
      match r with
      | inl e => (api, s, (None, Some e))
      | inr apiResponse =>
          let (data, err) := processResponse api apiResponse in
          match err with
          | Some (expiredTokenError _) =>
              let '(s, (token, err)) := renewToken s in
              let api := {| Query := Query api; APIToken := token;
                            categories := categories api |} in
              match err with
              | Some e => (api, s, (data, Some e))
              | None =>
                  let (s, r) := getRes query s in
                  match r with
                  | inl e => (api, s, (data, Some e))
                  | inr apiResponse =>
                      (initQuery api, s, processResponse api apiResponse)
                  end
              end
          | _ => (initQuery api, s, (data, err))
          end
      end
  end.

End Call.

(** A case of [TestCall]: the doubles count in [nrOfErrors], which starts
    at 0; the clock of the test stands at 0 and a token of the table expires
    100 seconds later. *)
Definition test_call (api : API)
  (getRes : string -> nat -> nat * (error + APIResponse))
  (renewToken : nat -> nat * (Token * option error))
  : TorrentResults * option error :=
  snd (call nat (fun _ => 0) (fun _ s => s) getRes renewToken
            DefaultAPIURL sample_json_Unmarshal api 0%nat).

Definition valid_api : API :=
  {| Query := ""; APIToken := mkToken "test" (100 * Second); categories := [] |}.

(** The double that reports an expired token once and then answers with
    [second]. *)
Definition expired_once (second : error + APIResponse) (q : string) (n : nat)
  : nat * (error + APIResponse) :=
  if (n =? 0)%nat then (Datatypes.S n, inr (mkAPIResponse None "error" 4))
  else (n, second).

End Legacy.

(** * Properties *)

(** ** The cases of the tests

    The model gives what [TestAPI] expects of the code. *)

Example test_garbage_data :
  test_case [ok200 "garbage"]
    = Some (None, Some (EnvelopeDecodeError "invalid character")).
Proof. reflexivity. Qed.

Example test_error_500 :
  test_case [error500]
    = Some (None, Some (StatusError 500 "500 Internal Server Error")).
Proof. reflexivity. Qed.

Example test_too_many_requests_then_500 :
  test_case [tooMany; error500]
    = Some (None, Some (StatusError 500 "500 Internal Server Error")).
Proof. reflexivity. Qed.

Example test_token_expired_then_500 :
  test_case [ok200 "expired"; error500]
    = Some (None, Some (StatusError 500 "500 Internal Server Error")).
Proof. reflexivity. Qed.

Example test_token_expired_then_no_results :
  test_case [ok200 "expired"; ok200 "some_token"; ok200 "noresults"]
    = Some (None, None).
Proof. reflexivity. Qed.

Example test_too_many_requests_then_OK :
  test_case [tooMany; ok200 "movie"] = Some (Some [movie], None).
Proof. reflexivity. Qed.

Example test_token_expired_then_OK :
  test_case [ok200 "expired"; ok200 "some_token"; ok200 "movie"]
    = Some (Some [movie], None).
Proof. reflexivity. Qed.

Example test_token_expired_then_too_many_then_OK :
  test_case [ok200 "expired"; tooMany; ok200 "some_token"; tooMany; ok200 "movie"]
    = Some (Some [movie], None).
Proof. reflexivity. Qed.

Example test_OK :
  test_case [ok200 "movie"] = Some (Some [movie], None).
Proof. reflexivity. Qed.

(** ** Token *)

Lemma IsValid_true_iff (now : Z) (t : Token) :
  IsValid now t = true <-> Token_Token t <> "" /\ now <= Token_Expires t.
Proof.
  unfold IsValid, After.
  destruct (String.eqb_spec (Token_Token t) "") as [Heq | Hne].
  - split; [discriminate | intros [Hne _]; contradiction].
  - destruct (Z.ltb_spec (Token_Expires t) now) as [Hlt | Hge].
    + split; [discriminate | intros [_ Hle]; lia].
    + split; [intros _; split; assumption | reflexivity].
Qed.

(** C2, as the spec words it, fails at the expiry instant itself: a token
    [test] that expires at 100 is still valid when the clock reads 100. *)
Lemma IsValid_at_expiry_instant :
  IsValid 100 (mkToken "test" 100) = true /\
  ~ (forall now t,
        IsValid now t = true <-> Token_Token t <> "" /\ now < Token_Expires t).
Proof.
  split; [reflexivity | intros H].
  destruct (H 100 (mkToken "test" 100)) as [Hlt _].
  specialize (Hlt eq_refl). simpl in Hlt. lia.
Qed.

(** C2, amended: [IsValid] is true iff the credential is not empty and the
    clock is not after the expiry instant.  It is false for an empty
    credential whatever the expiry, false whenever the expiry is strictly
    before the clock, and true for a non-empty credential when the clock
    reads the expiry instant exactly. *)
Theorem IsValid_not_after_expiry :
  forall (now : Z) (t : Token),
    (IsValid now t = true <-> Token_Token t <> "" /\ now <= Token_Expires t) /\
    (Token_Token t = "" -> IsValid now t = false) /\
    (Token_Expires t < now -> IsValid now t = false) /\
    (Token_Token t <> "" -> now = Token_Expires t -> IsValid now t = true).
Proof.
  intros now t. pose proof (IsValid_true_iff now t) as Hiff.
  split; [exact Hiff |].
  repeat split.
  - intros Hempty. apply not_true_is_false. intros Hv.
    apply Hiff in Hv. destruct Hv as [Hne _]. contradiction.
  - intros Hlt. apply not_true_is_false. intros Hv.
    apply Hiff in Hv. lia.
  - intros Hne Hnow. apply Hiff. split; [assumption | lia].
Qed.

Lemma IsValid_not_after_expiry_witness :
  IsValid 100 (mkToken "" 200) = false /\
  IsValid 100 (mkToken "test" 99) = false /\
  IsValid 100 (mkToken "test" 100) = true.
Proof.
  split; [| split].
  - apply (proj1 (proj2 (IsValid_not_after_expiry 100 (mkToken "" 200)))).
    reflexivity.
  - apply (proj1 (proj2 (proj2 (IsValid_not_after_expiry 100 (mkToken "test" 99))))).
    simpl. lia.
  - apply (proj2 (proj2 (proj2 (IsValid_not_after_expiry 100 (mkToken "test" 100))))).
    + simpl. discriminate.
    + reflexivity.
Defined.

(** ** Response interpreter *)

Section Interpreter.

Variable E : Env.
Variable a : API.

Lemma processResponse_payload (r : APIResponse) (raw : string) :
  Torrents r = Some raw ->
  processResponse E a r =
    match json_Unmarshal E raw None with
    | (_, Some e) => (None, Some (UnmarshalError (Query a) e))
    | (data, None) => (data, None)
    end.
Proof.
  intros Hraw. unfold processResponse. rewrite Hraw.
  destruct (json_Unmarshal E raw None) as [data [e |]]; reflexivity.
Qed.

Lemma processResponse_error_code (r : APIResponse) :
  Torrents r = None -> Error r <> "" ->
  processResponse E a r =
    if ErrorCode r =? tokenExpiredCode then
      (None, Some (expiredTokenError "expired token"))
    else if ErrorCode r =? imdbNotFound then (None, None)
    else if ErrorCode r =? noResultsCode then (None, None)
    else (None, Some (APIError (Query a) (Error r) (ErrorCode r))).
Proof.
  intros Hnil Herr. unfold processResponse. rewrite Hnil.
  destruct (String.eqb_spec (Error r) "") as [Heq | _]; [contradiction |].
  reflexivity.
Qed.

Lemma processResponse_expired (r : APIResponse) :
  error_envelope tokenExpiredCode r ->
  processResponse E a r = (None, Some (expiredTokenError "expired token")).
Proof.
  intros (Hnil & Herr & Hcode).
  rewrite (processResponse_error_code r Hnil Herr), Hcode. reflexivity.
Qed.

Lemma processResponse_benign (r : APIResponse) :
  error_envelope imdbNotFound r \/ error_envelope noResultsCode r ->
  processResponse E a r = (None, None).
Proof.
  intros [(Hnil & Herr & Hcode) | (Hnil & Herr & Hcode)];
    rewrite (processResponse_error_code r Hnil Herr), Hcode; reflexivity.
Qed.

(** The interpreter reports an expired token for exactly one kind of
    envelope, and with one text. *)
Lemma processResponse_expired_inv (r : APIResponse) (data : TorrentResults)
  (s : string) :
  processResponse E a r = (data, Some (expiredTokenError s)) ->
  error_envelope tokenExpiredCode r /\ data = None /\ s = "expired token".
Proof.
  unfold processResponse, error_envelope.
  destruct (Torrents r) as [raw |].
  - destruct (json_Unmarshal E raw None) as [d [e |]]; discriminate.
  - destruct (String.eqb_spec (Error r) "") as [Heq | Hne]; simpl;
      [discriminate |].
    destruct (Z.eqb_spec (ErrorCode r) tokenExpiredCode) as [Hc | Hc].
    + intros H. injection H as Hd Hs. repeat split; auto.
    + destruct (ErrorCode r =? imdbNotFound); [discriminate |].
      destruct (ErrorCode r =? noResultsCode); discriminate.
Qed.

End Interpreter.

(** C6, as the spec words it, fails for error code 4: it is neither 10 nor
    20, and the error the interpreter builds for it holds a fixed text, not
    the message and the code of the envelope. *)
Lemma processResponse_code_4_is_not_an_API_error :
  let r := {| Torrents := None; Error := "error"; ErrorCode := 4 |} in
  processResponse (scripted []) sample_api r
    = (None, Some (expiredTokenError "expired token")) /\
  ~ (forall (E : Env) (a : API) (r : APIResponse),
        Torrents r = None -> Error r <> "" ->
        ErrorCode r <> 10 -> ErrorCode r <> 20 ->
        exists e, snd (processResponse E a r) = Some e /\
                  carries e (Error r) (ErrorCode r)).
Proof.
  split; [reflexivity | intros H].
  destruct (H (scripted []) sample_api
              {| Torrents := None; Error := "error"; ErrorCode := 4 |})
    as (e & He & q & Hq); simpl; try discriminate; try reflexivity.
  rewrite Hq in He. discriminate.
Qed.

(** C6, amended: for an envelope with no payload and a non-empty error text,
    the codes 10 and 20 give the nil result set and no error; the code 4
    gives the expired-token error; every other code gives an error that
    carries the query, the message and the code. *)
Theorem processResponse_dispatches_on_error_code :
  forall (E : Env) (a : API) (r : APIResponse),
    Torrents r = None -> Error r <> "" ->
    ((ErrorCode r = 10 \/ ErrorCode r = 20) ->
       processResponse E a r = (None, None)) /\
    (ErrorCode r = 4 ->
       processResponse E a r = (None, Some (expiredTokenError "expired token"))) /\
    (ErrorCode r <> 4 -> ErrorCode r <> 10 -> ErrorCode r <> 20 ->
       processResponse E a r
         = (None, Some (APIError (Query a) (Error r) (ErrorCode r))) /\
       carries (APIError (Query a) (Error r) (ErrorCode r)) (Error r) (ErrorCode r)).
Proof.
  intros E a r Hnil Herr.
  rewrite (processResponse_error_code E a r Hnil Herr).
  unfold tokenExpiredCode, imdbNotFound, noResultsCode.
  repeat split.
  - intros [Hc | Hc]; rewrite Hc; reflexivity.
  - intros Hc; rewrite Hc; reflexivity.
  - destruct (Z.eqb_spec (ErrorCode r) 4); [contradiction |].
    destruct (Z.eqb_spec (ErrorCode r) 10); [contradiction |].
    destruct (Z.eqb_spec (ErrorCode r) 20); [contradiction |].
    reflexivity.
  - exists (Query a). reflexivity.
Qed.

Lemma processResponse_dispatches_on_error_code_witness :
  processResponse (scripted []) sample_api (mkAPIResponse None "error" 20)
    = (None, None) /\
  processResponse (scripted []) sample_api (mkAPIResponse None "error" 10)
    = (None, None) /\
  processResponse (scripted []) sample_api (mkAPIResponse None "error" 4)
    = (None, Some (expiredTokenError "expired token")) /\
  processResponse (scripted []) sample_api (mkAPIResponse None "error" 5)
    = (None, Some (APIError "&mode=search" "error" 5)).
Proof.
  assert (Hne : "error" <> "") by discriminate.
  split; [| split; [| split]].
  - apply (processResponse_dispatches_on_error_code (scripted []) sample_api
             (mkAPIResponse None "error" 20) eq_refl Hne).
    right. reflexivity.
  - apply (processResponse_dispatches_on_error_code (scripted []) sample_api
             (mkAPIResponse None "error" 10) eq_refl Hne).
    left. reflexivity.
  - apply (processResponse_dispatches_on_error_code (scripted []) sample_api
             (mkAPIResponse None "error" 4) eq_refl Hne).
    reflexivity.
  - apply (processResponse_dispatches_on_error_code (scripted []) sample_api
             (mkAPIResponse None "error" 5) eq_refl Hne); simpl; discriminate.
Defined.

(** ** Transport *)

Lemma wrap64_id (z : Z) : - 2 ^ 63 <= z < 2 ^ 63 -> wrap64 z = z.
Proof.
  intros Hz. unfold wrap64. rewrite Z.mod_small; lia.
Qed.

Lemma wrap64_range (z : Z) : - 2 ^ 63 <= wrap64 z < 2 ^ 63.
Proof.
  unfold wrap64.
  pose proof (Z.mod_pos_bound (z + 2 ^ 63) (2 ^ 64) ltac:(lia)). lia.
Qed.

(** The counter after one more decrement, when it was positive. *)
Lemma wrap64_pred_pos (m : Z) :
  0 < wrap64 (m - 1) -> wrap64 (wrap64 (m - 1) - 1) = wrap64 (m - 1) - 1.
Proof.
  intros Hpos. pose proof (wrap64_range (m - 1)). apply wrap64_id. lia.
Qed.

Lemma sent_send (E : Env) (q : string) (w : World) :
  sent (send E q w) = S (sent w).
Proof.
  unfold sent, send. simpl. rewrite filter_app, length_app. simpl. lia.
Qed.

Lemma sent_time_Sleep (d : Z) (w : World) : sent (time_Sleep d w) = sent w.
Proof.
  unfold sent, time_Sleep. simpl. rewrite filter_app, length_app. simpl. lia.
Qed.

Lemma sent_after_429 (E : Env) (a : API) (q : string) (k : nat) (w : World) :
  sent (after_429 E a q k w) = (sent w + k)%nat.
Proof.
  revert w. induction k as [| k IH]; intros w; simpl; [lia |].
  rewrite IH, sent_time_Sleep, sent_send. lia.
Qed.

Lemma after_429_S (E : Env) (a : API) (q : string) (k : nat) (w : World) :
  after_429 E a q (S k) w
    = time_Sleep (reqDelay a) (send E q (after_429 E a q k w)).
Proof.
  revert w. induction k as [| k IH]; intros w; [reflexivity |].
  change (after_429 E a q (S (S k)) w)
    with (after_429 E a q (S k) (time_Sleep (reqDelay a) (send E q w))).
  rewrite IH. reflexivity.
Qed.

(** The trace of [k] rate-limited attempts: a request and a sleep, [k]
    times over. *)
Lemma trace_after_429 (E : Env) (a : API) (q : string) (k : nat) (w : World) :
  trace (after_429 E a q k w)
    = trace w ++ List.concat (repeat [EvDo q; EvSleep (reqDelay a)] k).
Proof.
  revert w. induction k as [| k IH]; intros w; simpl.
  - rewrite app_nil_r. reflexivity.
  - rewrite IH. simpl. rewrite <- !app_assoc. reflexivity.
Qed.

Section Transport.

Variable E : Env.
Variable a : API.
Variable q : string.

Hypothesis NewRequest_ok : http_NewRequest E q = None.

(** One iteration that ends the loop. *)
Lemma makeRequest_loop_OK (fuel : nat) (m : Z) (w : World) (r : Response) :
  client_Do E (sent w) q = DoOk r -> StatusCode r = StatusOK ->
  makeRequest_loop E fuel a q m w = (send E q w, inr r).
Proof.
  intros Hdo Hst. destruct fuel; simpl;
    rewrite NewRequest_ok, Hdo, Hst; reflexivity.
Qed.

Lemma makeRequest_loop_other (fuel : nat) (m : Z) (w : World) (r : Response) :
  client_Do E (sent w) q = DoOk r ->
  StatusCode r <> StatusOK -> StatusCode r <> StatusTooManyRequests ->
  makeRequest_loop E fuel a q m w
    = (send E q w, inl (StatusError (StatusCode r) (Status r))).
Proof.
  intros Hdo Hok Hmany.
  apply Z.eqb_neq in Hok. apply Z.eqb_neq in Hmany.
  destruct fuel; simpl; rewrite NewRequest_ok, Hdo, Hok, Hmany; reflexivity.
Qed.

Lemma makeRequest_loop_last (fuel : nat) (m : Z) (w : World) (r : Response) :
  client_Do E (sent w) q = DoOk r -> StatusCode r = StatusTooManyRequests ->
  wrap64 (m - 1) <= 0 ->
  makeRequest_loop E fuel a q m w = (send E q w, inl MaxAttemptsError).
Proof.
  intros Hdo Hst Hm.
  assert (Hgt : (wrap64 (m - 1) >? 0) = false) by (rewrite Z.gtb_ltb; apply Z.ltb_ge; lia).
  destruct fuel; simpl; rewrite NewRequest_ok, Hdo, Hst; simpl; rewrite Hgt;
    reflexivity.
Qed.

(** One iteration that goes round again. *)
Lemma makeRequest_loop_again (fuel : nat) (m : Z) (w : World) (r : Response) :
  client_Do E (sent w) q = DoOk r -> StatusCode r = StatusTooManyRequests ->
  0 < wrap64 (m - 1) ->
  makeRequest_loop E (S fuel) a q m w
    = makeRequest_loop E fuel a q (wrap64 (m - 1))
        (time_Sleep (reqDelay a) (send E q w)).
Proof.
  intros Hdo Hst Hm.
  assert (Hgt : (wrap64 (m - 1) >? 0) = true) by (rewrite Z.gtb_ltb; apply Z.ltb_lt; lia).
  simpl. rewrite NewRequest_ok, Hdo, Hst. simpl. rewrite Hgt. reflexivity.
Qed.

(** [k] rate-limited attempts in a row, when the counter allows them. *)
Lemma makeRequest_loop_429s (k : nat) :
  forall (fuel : nat) (m : Z) (w : World),
    (forall i, (i < k)%nat ->
       exists r, client_Do E (sent w + i) q = DoOk r /\
                 StatusCode r = StatusTooManyRequests) ->
    (k <= Z.to_nat (wrap64 (m - 1)))%nat -> (k <= fuel)%nat ->
    exists m',
      wrap64 (m' - 1) = wrap64 (m - 1) - Z.of_nat k /\
      makeRequest_loop E fuel a q m w
        = makeRequest_loop E (fuel - k) a q m' (after_429 E a q k w).
Proof.
  induction k as [| k IH]; intros fuel m w Hresp Hm Hfuel.
  - exists m. split; [lia |]. rewrite Nat.sub_0_r. reflexivity.
  - destruct fuel as [| fuel]; [lia |].
    destruct (Hresp 0%nat ltac:(lia)) as (r & Hdo & Hst).
    rewrite Nat.add_0_r in Hdo.
    assert (Hpos : 0 < wrap64 (m - 1)) by lia.
    rewrite (makeRequest_loop_again fuel m w r Hdo Hst Hpos).
    destruct (IH fuel (wrap64 (m - 1))
                (time_Sleep (reqDelay a) (send E q w)))
      as (m' & Hm' & Heq).
    + intros i Hi. destruct (Hresp (S i) ltac:(lia)) as (r' & Hdo' & Hst').
      exists r'. split; [| exact Hst'].
      rewrite sent_time_Sleep, sent_send.
      replace (S (sent w) + i)%nat with (sent w + S i)%nat by lia. exact Hdo'.
    + rewrite (wrap64_pred_pos m Hpos). lia.
    + lia.
    + exists m'. split.
      * rewrite Hm', (wrap64_pred_pos m Hpos). lia.
      * exact Heq.
Qed.

(** The fuel [makeRequest] starts with is enough: more of it changes
    nothing. *)
Lemma makeRequest_loop_fuel (fuel1 : nat) :
  forall (fuel2 : nat) (m : Z) (w : World),
    (Z.to_nat (wrap64 (m - 1)) <= fuel1)%nat ->
    (Z.to_nat (wrap64 (m - 1)) <= fuel2)%nat ->
    makeRequest_loop E fuel1 a q m w = makeRequest_loop E fuel2 a q m w.
Proof.
  induction fuel1 as [| fuel1 IH]; intros fuel2 m w H1 H2.
  - destruct fuel2 as [| fuel2]; [reflexivity |].
    simpl. rewrite NewRequest_ok.
    destruct (client_Do E (sent w) q) as [e | r]; [reflexivity |].
    destruct (StatusCode r =? StatusOK); [reflexivity |].
    destruct (StatusCode r =? StatusTooManyRequests); [| reflexivity].
    destruct (Z.gtb_spec (wrap64 (m - 1)) 0) as [Hpos | Hle]; [lia | reflexivity].
  - destruct fuel2 as [| fuel2].
    + simpl. rewrite NewRequest_ok.
      destruct (client_Do E (sent w) q) as [e | r]; [reflexivity |].
      destruct (StatusCode r =? StatusOK); [reflexivity |].
      destruct (StatusCode r =? StatusTooManyRequests); [| reflexivity].
      destruct (Z.gtb_spec (wrap64 (m - 1)) 0) as [Hpos | Hle]; [lia | reflexivity].
    + simpl. rewrite NewRequest_ok.
      destruct (client_Do E (sent w) q) as [e | r]; [reflexivity |].
      destruct (StatusCode r =? StatusOK); [reflexivity |].
      destruct (StatusCode r =? StatusTooManyRequests); [| reflexivity].
      destruct (Z.gtb_spec (wrap64 (m - 1)) 0) as [Hpos | Hle]; [| reflexivity].
      apply IH; rewrite (wrap64_pred_pos m Hpos); lia.
Qed.

End Transport.

Lemma attempts_maxRetries (a : API) :
  1 <= maxRetries a < 2 ^ 63 -> Z.of_nat (attempts a) = maxRetries a.
Proof.
  intros Hr. unfold attempts. rewrite wrap64_id by lia. lia.
Qed.

(** [New] without options leaves the number of attempts at its default. *)
Lemma New_default_maxRetries (E : Env) (appID : string) (w w' : World) (a : API) :
  New E appID [] w = (w', inr a) -> maxRetries a = 10.
Proof.
  unfold New. simpl.
  match goal with |- context [renewToken E ?x w] =>
    destruct (renewToken E x w) as [w1 [token [e |]]] end;
    intros H; inversion H. reflexivity.
Qed.

(** C7: [makeRequest], against a service that answers every request.  With
    [k] the position of the first answer that is not a 429: a 200 there is
    returned, after [k] sleeps and nothing else; any other status there is
    an error that carries the status, and no request follows it.  When all
    the answers are 429 the request is sent [attempts a] times, with a sleep
    between two attempts, and the error says that the attempts are used up.
    [attempts a] is [maxRetries a] when that is at least 1, and 10 by
    default; so 429, 429, 200 succeeds when [maxRetries a] is 3 or more. *)
Theorem makeRequest_rate_limit_policy :
  forall (E : Env) (a : API) (q : string) (w : World) (resps : nat -> Response),
    http_NewRequest E q = None ->
    (forall i, (i < attempts a)%nat ->
               client_Do E (sent w + i) q = DoOk (resps i)) ->
    (forall k, (k < attempts a)%nat ->
       (forall i, (i < k)%nat -> StatusCode (resps i) = 429) ->
       StatusCode (resps k) = 200 ->
       makeRequest E a q w
         = (send E q (after_429 E a q k w), inr (resps k))) /\
    (forall k, (k < attempts a)%nat ->
       (forall i, (i < k)%nat -> StatusCode (resps i) = 429) ->
       StatusCode (resps k) <> 200 -> StatusCode (resps k) <> 429 ->
       makeRequest E a q w
         = (send E q (after_429 E a q k w),
            inl (StatusError (StatusCode (resps k)) (Status (resps k))))) /\
    ((forall i, (i < attempts a)%nat -> StatusCode (resps i) = 429) ->
       makeRequest E a q w
         = (send E q (after_429 E a q (attempts a - 1) w),
            inl MaxAttemptsError) /\
       trace (fst (makeRequest E a q w))
         = trace w
             ++ List.concat (repeat [EvDo q; EvSleep (reqDelay a)] (attempts a - 1))
             ++ [EvDo q]) /\
    (1 <= maxRetries a < 2 ^ 63 -> Z.of_nat (attempts a) = maxRetries a) /\
    (maxRetries a = DefaultMaxRetries -> attempts a = 10%nat) /\
    (3 <= maxRetries a < 2 ^ 63 ->
       StatusCode (resps 0%nat) = 429 -> StatusCode (resps 1%nat) = 429 ->
       StatusCode (resps 2%nat) = 200 ->
       makeRequest E a q w
         = (send E q (after_429 E a q 2 w), inr (resps 2%nat))).
Proof.
  intros E a q w resps Hnew Hresp.
  assert (Hrun : forall k, (k < attempts a)%nat ->
            (forall i, (i < k)%nat -> StatusCode (resps i) = 429) ->
            exists m',
              wrap64 (m' - 1) = wrap64 (maxRetries a - 1) - Z.of_nat k /\
              makeRequest E a q w
                = makeRequest_loop E (Z.to_nat (wrap64 (maxRetries a - 1)) - k)
                    a q m' (after_429 E a q k w)).
  { intros k Hk H429. unfold makeRequest.
    apply makeRequest_loop_429s; [exact Hnew | | unfold attempts in Hk; lia | unfold attempts in Hk; lia].
    intros i Hi. exists (resps i). split; [apply Hresp; lia | apply H429; exact Hi]. }
  assert (Hat : forall k, (k < attempts a)%nat ->
            client_Do E (sent (after_429 E a q k w)) q = DoOk (resps k)).
  { intros k Hk. rewrite sent_after_429. apply Hresp. exact Hk. }
  assert (Hfirst200 : forall k, (k < attempts a)%nat ->
            (forall i, (i < k)%nat -> StatusCode (resps i) = 429) ->
            StatusCode (resps k) = 200 ->
            makeRequest E a q w
              = (send E q (after_429 E a q k w), inr (resps k))).
  { intros k Hk H429 H200.
    destruct (Hrun k Hk H429) as (m' & _ & Heq). rewrite Heq.
    apply makeRequest_loop_OK; [exact Hnew | apply Hat; exact Hk | exact H200]. }
  split; [exact Hfirst200 |].
  split.
  { intros k Hk H429 Hn200 Hn429.
    destruct (Hrun k Hk H429) as (m' & _ & Heq). rewrite Heq.
    apply makeRequest_loop_other;
      [exact Hnew | apply Hat; exact Hk | exact Hn200 | exact Hn429]. }
  split.
  { intros H429.
    assert (Hlast : (attempts a - 1 < attempts a)%nat) by (unfold attempts; lia).
    destruct (Hrun (attempts a - 1)%nat Hlast) as (m' & Hm' & Heq).
    { intros i Hi. apply H429. lia. }
    assert (Hres : makeRequest E a q w
              = (send E q (after_429 E a q (attempts a - 1) w),
                 inl MaxAttemptsError)).
    { rewrite Heq.
      apply makeRequest_loop_last with (r := resps (attempts a - 1)%nat);
        [exact Hnew | apply Hat; exact Hlast | apply H429; exact Hlast |].
      rewrite Hm'. unfold attempts. lia. }
    split; [exact Hres |].
    rewrite Hres. simpl. rewrite trace_after_429, <- app_assoc. reflexivity. }
  split; [apply attempts_maxRetries |].
  split.
  { intros Hdef. unfold attempts. rewrite Hdef. reflexivity. }
  intros Hmax H0 H1 H2.
  apply Hfirst200.
  - pose proof (attempts_maxRetries a ltac:(lia)). lia.
  - intros i Hi. destruct i as [| [| i]]; [exact H0 | exact H1 | lia].
  - exact H2.
Qed.

Lemma makeRequest_rate_limit_policy_witness :
  makeRequest (scripted [tooMany; tooMany; ok200 "movie"])
              (set_maxRetries sample_api 3) "q" world0
    = ({| clock := 3;
          trace := [EvDo "q"; EvSleep 0; EvDo "q"; EvSleep 0; EvDo "q"] |},
       inr (mkResponse 200 "200 OK" "movie")) /\
  makeRequest (scripted [tooMany; tooMany; tooMany; ok200 "movie"])
              (set_maxRetries sample_api 3) "q" world0
    = ({| clock := 3;
          trace := [EvDo "q"; EvSleep 0; EvDo "q"; EvSleep 0; EvDo "q"] |},
       inl MaxAttemptsError) /\
  makeRequest (scripted [tooMany; error500; ok200 "movie"])
              (set_maxRetries sample_api 3) "q" world0
    = ({| clock := 2; trace := [EvDo "q"; EvSleep 0; EvDo "q"] |},
       inl (StatusError 500 "500 Internal Server Error")).
Proof.
  assert (Hthree : forall script : list DoResult,
            (forall i, (i < 3)%nat -> exists r, nth i script (ok200 "bare") = DoOk r) ->
            forall i, (i < attempts (set_maxRetries sample_api 3))%nat ->
              client_Do (scripted script) (sent world0 + i) "q"
                = DoOk (answers script i)).
  { intros script Hok i Hi. change (attempts (set_maxRetries sample_api 3)) with 3%nat in Hi.
    destruct (Hok i Hi) as [r Hr]. unfold answers. simpl. rewrite Hr. reflexivity. }
  assert (Hscript : forall r0 r1 r2 rest i, (i < 3)%nat ->
            exists r, nth i (DoOk r0 :: DoOk r1 :: DoOk r2 :: rest) (ok200 "bare")
                        = DoOk r).
  { intros r0 r1 r2 rest i Hi.
    destruct i as [| [| [| i]]]; [eexists; reflexivity .. | lia]. }
  split; [| split].
  - destruct (makeRequest_rate_limit_policy
                (scripted [tooMany; tooMany; ok200 "movie"])
                (set_maxRetries sample_api 3) "q" world0
                (answers [tooMany; tooMany; ok200 "movie"])
                eq_refl (Hthree _ (Hscript _ _ _ []))) as (_ & _ & _ & _ & _ & H).
    rewrite H; [reflexivity | simpl; lia | reflexivity | reflexivity | reflexivity].
  - destruct (makeRequest_rate_limit_policy
                (scripted [tooMany; tooMany; tooMany; ok200 "movie"])
                (set_maxRetries sample_api 3) "q" world0
                (answers [tooMany; tooMany; tooMany; ok200 "movie"])
                eq_refl (Hthree _ (Hscript _ _ _ [ok200 "movie"])))
      as (_ & _ & H & _).
    destruct H as [H _].
    + intros i Hi. change (attempts (set_maxRetries sample_api 3)) with 3%nat in Hi.
      destruct i as [| [| [| i]]]; [reflexivity .. | lia].
    + rewrite H. reflexivity.
  - destruct (makeRequest_rate_limit_policy
                (scripted [tooMany; error500; ok200 "movie"])
                (set_maxRetries sample_api 3) "q" world0
                (answers [tooMany; error500; ok200 "movie"])
                eq_refl (Hthree _ (Hscript _ _ _ []))) as (_ & H & _).
    rewrite (H 1%nat).
    + reflexivity.
    + change (attempts (set_maxRetries sample_api 3)) with 3%nat. lia.
    + intros i Hi. destruct i as [| i]; [reflexivity | lia].
    + simpl. discriminate.
    + simpl. discriminate.
Defined.

(** ** What the methods leave in the trace, and the errors they return *)

Lemma calls_of_app (t u : list Event) :
  calls_of (t ++ u) = calls_of t ++ calls_of u.
Proof. apply filter_app. Qed.

Lemma calls_of_transport (q : string) (evs : list Event) :
  Forall (transport_event q) evs -> calls_of evs = [].
Proof.
  induction 1 as [| ev evs Hev _ IH]; [reflexivity |].
  destruct Hev as [-> | [d ->]]; simpl; exact IH.
Qed.

Section Methods.

Variable E : Env.

Lemma makeRequest_loop_trace (fuel : nat) :
  forall (a : API) (q : string) (m : Z) (w : World),
    exists evs,
      trace (fst (makeRequest_loop E fuel a q m w)) = trace w ++ evs /\
      Forall (transport_event q) evs.
Proof.
  assert (Hnil : forall w : World, trace w = trace w ++ [])
    by (intros; rewrite app_nil_r; reflexivity).
  assert (Hdo : forall q, Forall (transport_event q) [EvDo q])
    by (intros; repeat constructor).
  induction fuel as [| fuel IH]; intros a q m w; simpl.
  - destruct (http_NewRequest E q); [exists []; split; [apply Hnil | constructor] |].
    destruct (client_Do E (sent w) q) as [e | r];
      [exists [EvDo q]; split; [reflexivity | apply Hdo] |].
    destruct (StatusCode r =? StatusOK);
      [exists [EvDo q]; split; [reflexivity | apply Hdo] |].
    destruct (StatusCode r =? StatusTooManyRequests);
      [| exists [EvDo q]; split; [reflexivity | apply Hdo]].
    destruct (wrap64 (m - 1) >? 0);
      exists [EvDo q]; split; try reflexivity; apply Hdo.
  - destruct (http_NewRequest E q); [exists []; split; [apply Hnil | constructor] |].
    destruct (client_Do E (sent w) q) as [e | r];
      [exists [EvDo q]; split; [reflexivity | apply Hdo] |].
    destruct (StatusCode r =? StatusOK);
      [exists [EvDo q]; split; [reflexivity | apply Hdo] |].
    destruct (StatusCode r =? StatusTooManyRequests);
      [| exists [EvDo q]; split; [reflexivity | apply Hdo]].
    destruct (wrap64 (m - 1) >? 0);
      [| exists [EvDo q]; split; [reflexivity | apply Hdo]].
    destruct (IH a q (wrap64 (m - 1))
                (time_Sleep (reqDelay a) (send E q w))) as (evs & Ht & Hall).
    exists (EvDo q :: EvSleep (reqDelay a) :: evs). split.
    + rewrite Ht. simpl. rewrite <- !app_assoc. reflexivity.
    + constructor; [left; reflexivity |].
      constructor; [right; eexists; reflexivity | exact Hall].
Qed.

Lemma makeRequest_trace (a : API) (q : string) (w : World) :
  exists evs,
    trace (fst (makeRequest E a q w)) = trace w ++ evs /\
    Forall (transport_event q) evs.
Proof. apply makeRequest_loop_trace. Qed.

(** The transport never builds the expired-token error. *)
Lemma makeRequest_loop_error (fuel : nat) :
  forall (a : API) (q : string) (m : Z) (w w' : World) (e : error),
    makeRequest_loop E fuel a q m w = (w', inl e) ->
    is_expiredTokenError e = false.
Proof.
  induction fuel as [| fuel IH]; intros a q m w w' e; simpl;
    (destruct (http_NewRequest E q); [intros H; inversion H; reflexivity |]);
    (destruct (client_Do E (sent w) q) as [e0 | r];
       [intros H; inversion H; reflexivity |]);
    (destruct (StatusCode r =? StatusOK); [discriminate |]);
    (destruct (StatusCode r =? StatusTooManyRequests);
       [| intros H; inversion H; reflexivity]);
    (destruct (wrap64 (m - 1) >? 0); [| intros H; inversion H; reflexivity]).
  - intros H; inversion H; reflexivity.
  - apply IH.
Qed.

Lemma getResults_trace (a : API) (q : string) (w : World) :
  exists evs,
    trace (fst (getResults E a q w)) = trace w ++ EvGetResults q :: evs /\
    Forall (transport_event q) evs.
Proof.
  unfold getResults.
  destruct (makeRequest_trace a q (record (EvGetResults q) w)) as (evs & Ht & Hall).
  exists evs. split; [| exact Hall].
  destruct (makeRequest E a q (record (EvGetResults q) w)) as [w1 [e | resp]];
    simpl in Ht.
  - simpl. rewrite Ht, <- app_assoc. reflexivity.
  - destruct (decode_APIResponse E (Body resp) zeroAPIResponse) as [r [e |]];
      simpl; rewrite Ht, <- app_assoc; reflexivity.
Qed.

Lemma getResults_calls (a : API) (q : string) (w : World) :
  calls_of (trace (fst (getResults E a q w)))
    = calls_of (trace w) ++ [EvGetResults q].
Proof.
  destruct (getResults_trace a q w) as (evs & Ht & Hall).
  rewrite Ht, calls_of_app. simpl.
  rewrite (calls_of_transport q evs Hall). reflexivity.
Qed.

Lemma getResults_error (a : API) (q : string) (w w' : World) (e : error) :
  getResults E a q w = (w', inl e) -> is_expiredTokenError e = false.
Proof.
  unfold getResults.
  destruct (makeRequest E a q (record (EvGetResults q) w)) as [w1 [e1 | resp]] eqn:Hreq.
  - intros H; inversion H; subst.
    apply (makeRequest_loop_error _ _ _ _ _ _ _ Hreq).
  - destruct (decode_APIResponse E (Body resp) zeroAPIResponse) as [r [e1 |]];
      intros H; inversion H; reflexivity.
Qed.

Lemma renewToken_trace (a : API) (w : World) :
  exists evs,
    trace (fst (renewToken E a w)) = trace w ++ EvRenewToken :: evs /\
    Forall (transport_event
              (url a +++ "get_token=get_token&app_id=" +++ appID a)) evs.
Proof.
  unfold renewToken.
  destruct (makeRequest_trace a
              (url a +++ "get_token=get_token&app_id=" +++ appID a)
              (record EvRenewToken w)) as (evs & Ht & Hall).
  exists evs. split; [| exact Hall].
  destruct (makeRequest E a _ (record EvRenewToken w)) as [w1 [e | resp]];
    simpl in Ht.
  - simpl. rewrite Ht, <- app_assoc. reflexivity.
  - destruct (decode_Token E (Body resp) (Token_Token zeroToken)) as [cred [e |]];
      simpl; rewrite Ht, <- app_assoc; reflexivity.
Qed.

Lemma renewToken_calls (a : API) (w : World) :
  calls_of (trace (fst (renewToken E a w)))
    = calls_of (trace w) ++ [EvRenewToken].
Proof.
  destruct (renewToken_trace a w) as (evs & Ht & Hall).
  rewrite Ht, calls_of_app. simpl.
  rewrite (calls_of_transport _ evs Hall). reflexivity.
Qed.

(** A renewal that fails: the token it returns has the zero expiry; its
    credential is empty when the transport failed, and what the decoder
    left when the decoder failed. *)
Lemma renewToken_failure (a : API) (w w' : World) (token : Token) (e : error) :
  renewToken E a w = (w', (token, Some e)) ->
  is_expiredTokenError e = false /\
  Token_Expires token = 0 /\
  (token = zeroToken \/
   exists body le,
     e = TokenDecodeError le /\
     decode_Token E body "" = (Token_Token token, Some le)).
Proof.
  unfold renewToken.
  destruct (makeRequest E a _ (record EvRenewToken w)) as [w1 [e1 | resp]] eqn:Hreq.
  - intros H; inversion H; subst. split; [| split; [reflexivity | left; reflexivity]].
    apply (makeRequest_loop_error _ _ _ _ _ _ _ Hreq).
  - destruct (decode_Token E (Body resp) (Token_Token zeroToken)) as [cred [le |]] eqn:Hdec;
      intros H; inversion H; subst.
    split; [reflexivity | split; [reflexivity |]].
    right. exists (Body resp), le. split; [reflexivity | exact Hdec].
Qed.

End Methods.

(** ** Call controller *)

Section Controller.

Variable E : Env.

Lemma ensureToken_cases (a a0 : API) (w w0 : World) (err : option error) :
  ensureToken E a w = (a0, w0, err) ->
  (IsValid (clock w) (APIToken a) = true /\ a0 = a /\ w0 = w /\ err = None) \/
  (IsValid (clock w) (APIToken a) = false /\
   exists token, renewToken E a w = (w0, (token, err)) /\
                 a0 = set_APIToken a token).
Proof.
  unfold ensureToken.
  destruct (IsValid (clock w) (APIToken a)); simpl.
  - intros H; inversion H. left. repeat split.
  - destruct (renewToken E a w) as [w1 [token err1]].
    intros H; inversion H; subst. right. split; [reflexivity |].
    exists token. split; reflexivity.
Qed.

Lemma ensureToken_calls (a a0 : API) (w w0 : World) (err : option error) :
  ensureToken E a w = (a0, w0, err) ->
  exists pre,
    calls_of (trace w0) = calls_of (trace w) ++ pre /\
    (pre = [] \/ pre = [EvRenewToken]).
Proof.
  intros H. destruct (ensureToken_cases _ _ _ _ _ H)
    as [(_ & _ & -> & _) | (_ & token & Hrenew & _)].
  - exists []. rewrite app_nil_r. split; [reflexivity | left; reflexivity].
  - exists [EvRenewToken]. split; [| right; reflexivity].
    pose proof (renewToken_calls E a w) as Hc. rewrite Hrenew in Hc. exact Hc.
Qed.

Lemma ensureToken_error (a a0 : API) (w w0 : World) (e : error) :
  ensureToken E a w = (a0, w0, Some e) -> is_expiredTokenError e = false.
Proof.
  intros H. destruct (ensureToken_cases _ _ _ _ _ H)
    as [(_ & _ & _ & Hnone) | (_ & token & Hrenew & _)]; [discriminate |].
  apply (renewToken_failure E _ _ _ _ _ Hrenew).
Qed.

(** The token check touches the token only. *)
Lemma ensureToken_fields (a a0 : API) (w w0 : World) (err : option error) :
  ensureToken E a w = (a0, w0, err) ->
  Query a0 = Query a /\ categories a0 = categories a /\
  url a0 = url a /\ appID a0 = appID a.
Proof.
  intros H. destruct (ensureToken_cases _ _ _ _ _ H)
    as [(_ & -> & _ & _) | (_ & token & _ & ->)]; repeat split.
Qed.

(** Every run of [call_body] is one of the six ways of [call_path]. *)
Lemma call_body_path (a : API) (w : World) :
  call_path E a w (call_body E a w).
Proof.
  unfold call_body.
  destruct (ensureToken E a w) as [[a0 w0] [e |]] eqn:Hens;
    [apply path_no_token; exact Hens |].
  destruct (getResults E (finalizeCategories a0)
              (assemble (finalizeCategories a0)) w0) as [w1 [e | r1]] eqn:Hget;
    [eapply path_transport; eassumption |].
  destruct (processResponse E (finalizeCategories a0) r1) as [data [e |]] eqn:Hproc;
    [| eapply path_first; try eassumption; intros s; discriminate].
  destruct e as [s | | | | | | | | | |];
    try (eapply path_first; try eassumption; intros s'; discriminate).
  simpl.
  destruct (processResponse_expired_inv E _ _ _ _ Hproc) as (Henv & _ & _).
  destruct (renewToken E (finalizeCategories a0) w1) as [w2 [token [e |]]] eqn:Hrenew;
    [eapply path_renew_failed; eassumption |].
  destruct (getResults E (set_APIToken (finalizeCategories a0) token)
              (assemble (finalizeCategories a0)) w2) as [w3 [e | r2]] eqn:Hget2.
  - eapply path_retry_transport; eassumption.
  - eapply path_retry; eassumption.
Qed.

(** The way through [call_body] is fixed by the outcomes of its steps. *)
Lemma call_body_retry (a a0 : API) (w w0 w1 w2 w3 : World) (r1 r2 : APIResponse)
  (token : Token) :
  ensureToken E a w = (a0, w0, None) ->
  getResults E (finalizeCategories a0) (assemble (finalizeCategories a0)) w0
    = (w1, inr r1) ->
  error_envelope tokenExpiredCode r1 ->
  renewToken E (finalizeCategories a0) w1 = (w2, (token, None)) ->
  getResults E (set_APIToken (finalizeCategories a0) token)
             (assemble (finalizeCategories a0)) w2 = (w3, inr r2) ->
  call_body E a w
    = (set_APIToken (finalizeCategories a0) token, w3,
       processResponse E (set_APIToken (finalizeCategories a0) token) r2).
Proof.
  intros Hens Hget Henv Hrenew Hget2. unfold call_body.
  rewrite Hens, Hget, (processResponse_expired E _ _ Henv). simpl.
  rewrite Hrenew, Hget2. reflexivity.
Qed.

Lemma call_body_renew_failed (a a0 : API) (w w0 w1 w2 : World) (r1 : APIResponse)
  (token : Token) (e : error) :
  ensureToken E a w = (a0, w0, None) ->
  getResults E (finalizeCategories a0) (assemble (finalizeCategories a0)) w0
    = (w1, inr r1) ->
  error_envelope tokenExpiredCode r1 ->
  renewToken E (finalizeCategories a0) w1 = (w2, (token, Some e)) ->
  call_body E a w
    = (set_APIToken (finalizeCategories a0) token, w2, (None, Some e)).
Proof.
  intros Hens Hget Henv Hrenew. unfold call_body.
  rewrite Hens, Hget, (processResponse_expired E _ _ Henv). simpl.
  rewrite Hrenew. reflexivity.
Qed.

Lemma call_body_first (a a0 : API) (w w0 w1 : World) (r1 : APIResponse) :
  ensureToken E a w = (a0, w0, None) ->
  getResults E (finalizeCategories a0) (assemble (finalizeCategories a0)) w0
    = (w1, inr r1) ->
  (forall s, snd (processResponse E (finalizeCategories a0) r1)
               <> Some (expiredTokenError s)) ->
  call_body E a w
    = (finalizeCategories a0, w1, processResponse E (finalizeCategories a0) r1).
Proof.
  intros Hens Hget Hnot. unfold call_body. rewrite Hens, Hget.
  destruct (processResponse E (finalizeCategories a0) r1) as [data [e |]];
    [| reflexivity].
  destruct e; try reflexivity. exfalso. eapply Hnot. reflexivity.
Qed.

Lemma call_unfold (a : API) (w : World) :
  call E a w
    = (initQuery (fst (fst (call_body E a w))), snd (fst (call_body E a w)),
       snd (call_body E a w)).
Proof.
  unfold call. destruct (call_body E a w) as [[a' w'] r]. reflexivity.
Qed.

(** The marks a run of [call_body] adds to the trace. *)
Lemma call_body_calls (a : API) (w : World) :
  exists pre q post,
    calls_of (trace (snd (fst (call_body E a w))))
      = calls_of (trace w) ++ pre ++ post /\
    (pre = [] \/ pre = [EvRenewToken]) /\
    (post = [] \/ post = [EvGetResults q] \/
     post = [EvGetResults q; EvRenewToken] \/
     post = [EvGetResults q; EvRenewToken; EvGetResults q]).
Proof.
  pose proof (fun a q w => getResults_calls E a q w) as Hg.
  pose proof (fun a w => renewToken_calls E a w) as Hr.
  destruct (call_body_path a w)
    as [a0 w0 e Hens | a0 w0 w1 e Hens Hget | a0 w0 w1 r1 data err Hens Hget _ _
        | a0 w0 w1 w2 r1 token e Hens Hget _ Hrenew
        | a0 w0 w1 w2 w3 r1 token e Hens Hget _ Hrenew Hget2
        | a0 w0 w1 w2 w3 r1 r2 token Hens Hget _ Hrenew Hget2];
    destruct (ensureToken_calls _ _ _ _ _ Hens) as (pre & Hpre & Hshape);
    exists pre, (assemble (finalizeCategories a0)); simpl.
  - exists []. rewrite app_nil_r. split; [exact Hpre | split; [exact Hshape | auto 8]].
  - exists [EvGetResults (assemble (finalizeCategories a0))].
    specialize (Hg (finalizeCategories a0) (assemble (finalizeCategories a0)) w0).
    rewrite Hget in Hg. simpl in Hg. rewrite Hg, Hpre, <- app_assoc. split; [reflexivity | split; [exact Hshape | auto 8]].
  - exists [EvGetResults (assemble (finalizeCategories a0))].
    specialize (Hg (finalizeCategories a0) (assemble (finalizeCategories a0)) w0).
    rewrite Hget in Hg. simpl in Hg. rewrite Hg, Hpre, <- app_assoc. split; [reflexivity | split; [exact Hshape | auto 8]].
  - exists [EvGetResults (assemble (finalizeCategories a0)); EvRenewToken].
    specialize (Hg (finalizeCategories a0) (assemble (finalizeCategories a0)) w0).
    specialize (Hr (finalizeCategories a0) w1).
    rewrite Hget in Hg. rewrite Hrenew in Hr. simpl in Hg, Hr.
    rewrite Hr, Hg, Hpre, <- !app_assoc. simpl. split; [reflexivity | split; [exact Hshape | auto 8]].
  - exists [EvGetResults (assemble (finalizeCategories a0)); EvRenewToken;
            EvGetResults (assemble (finalizeCategories a0))].
    pose proof (Hg (finalizeCategories a0) (assemble (finalizeCategories a0)) w0) as Hg1.
    pose proof (Hg (set_APIToken (finalizeCategories a0) token)
                   (assemble (finalizeCategories a0)) w2) as Hg2.
    specialize (Hr (finalizeCategories a0) w1).
    rewrite Hget in Hg1. rewrite Hget2 in Hg2. rewrite Hrenew in Hr.
    simpl in Hg1, Hg2, Hr.
    rewrite Hg2, Hr, Hg1, Hpre, <- !app_assoc. simpl. split; [reflexivity | split; [exact Hshape | auto 8]].
  - exists [EvGetResults (assemble (finalizeCategories a0)); EvRenewToken;
            EvGetResults (assemble (finalizeCategories a0))].
    pose proof (Hg (finalizeCategories a0) (assemble (finalizeCategories a0)) w0) as Hg1.
    pose proof (Hg (set_APIToken (finalizeCategories a0) token)
                   (assemble (finalizeCategories a0)) w2) as Hg2.
    specialize (Hr (finalizeCategories a0) w1).
    rewrite Hget in Hg1. rewrite Hget2 in Hg2. rewrite Hrenew in Hr.
    simpl in Hg1, Hg2, Hr.
    rewrite Hg2, Hr, Hg1, Hpre, <- !app_assoc. simpl. split; [reflexivity | split; [exact Hshape | auto 8]].
Qed.

End Controller.

(** C5: whatever the state [call] starts from and however it ends, the
    receiver it leaves has the empty query string and a category list of
    length zero. *)
Theorem call_resets_query_state :
  forall (E : Env) (a : API) (w : World),
    Query (fst (fst (call E a w))) = "" /\
    List.length (categories (fst (fst (call E a w)))) = 0%nat.
Proof.
  intros E a w. rewrite call_unfold. split; reflexivity.
Qed.

(** C1: a run of [call] marks the trace with at most one renewal at entry,
    then with nothing, one [getResults], one [getResults] and a renewal, or
    one [getResults], a renewal and a second [getResults]: never a third.
    When the first envelope reports code 4, the renewal succeeds and the
    second request gives an envelope, [call] returns what the interpreter
    makes of that envelope, in the world the second [getResults] left; an
    envelope that reports code 4 again makes it return the error. *)
Theorem call_retries_expired_token_once :
  forall (E : Env) (a : API) (w : World),
    (exists pre q post,
       calls_of (trace (snd (fst (call E a w))))
         = calls_of (trace w) ++ pre ++ post /\
       (pre = [] \/ pre = [EvRenewToken]) /\
       (post = [] \/ post = [EvGetResults q] \/
        post = [EvGetResults q; EvRenewToken] \/
        post = [EvGetResults q; EvRenewToken; EvGetResults q])) /\
    (forall (a0 : API) (w0 w1 w2 w3 : World) (r1 r2 : APIResponse) (token : Token),
       ensureToken E a w = (a0, w0, None) ->
       getResults E (finalizeCategories a0) (assemble (finalizeCategories a0)) w0
         = (w1, inr r1) ->
       error_envelope 4 r1 ->
       renewToken E (finalizeCategories a0) w1 = (w2, (token, None)) ->
       getResults E (set_APIToken (finalizeCategories a0) token)
                  (assemble (finalizeCategories a0)) w2 = (w3, inr r2) ->
       call E a w
         = (initQuery (set_APIToken (finalizeCategories a0) token), w3,
            processResponse E (set_APIToken (finalizeCategories a0) token) r2) /\
       calls_of (trace w3)
         = calls_of (trace w0)
             ++ [EvGetResults (assemble (finalizeCategories a0)); EvRenewToken;
                 EvGetResults (assemble (finalizeCategories a0))] /\
       (error_envelope 4 r2 ->
          snd (call E a w) = (None, Some (expiredTokenError "expired token")))).
Proof.
  intros E a w. split.
  - rewrite call_unfold. simpl. apply call_body_calls.
  - intros a0 w0 w1 w2 w3 r1 r2 token Hens Hget Henv Hrenew Hget2.
    assert (Hcall : call E a w
              = (initQuery (set_APIToken (finalizeCategories a0) token), w3,
                 processResponse E (set_APIToken (finalizeCategories a0) token) r2)).
    { rewrite call_unfold,
        (call_body_retry E a a0 w w0 w1 w2 w3 r1 r2 token Hens Hget Henv Hrenew Hget2).
      reflexivity. }
    split; [exact Hcall | split].
    + pose proof (getResults_calls E (finalizeCategories a0)
                    (assemble (finalizeCategories a0)) w0) as Hg1.
      pose proof (renewToken_calls E (finalizeCategories a0) w1) as Hr.
      pose proof (getResults_calls E (set_APIToken (finalizeCategories a0) token)
                    (assemble (finalizeCategories a0)) w2) as Hg2.
      rewrite Hget in Hg1. rewrite Hrenew in Hr. rewrite Hget2 in Hg2.
      simpl in Hg1, Hr, Hg2.
      rewrite Hg2, Hr, Hg1, <- !app_assoc. reflexivity.
    + intros Henv2. rewrite Hcall. simpl.
      apply processResponse_expired. exact Henv2.
Qed.

Lemma call_retries_expired_token_once_witness :
  snd (call (scripted [ok200 "expired"; tooMany; ok200 "some_token";
                       ok200 "expired"; ok200 "movie"])
            sample_api world0)
    = (None, Some (expiredTokenError "expired token")) /\
  sent (snd (fst (call (scripted [ok200 "expired"; tooMany; ok200 "some_token";
                                  ok200 "expired"; ok200 "movie"])
                       sample_api world0))) = 4%nat.
Proof.
  edestruct (proj2 (call_retries_expired_token_once
                      (scripted [ok200 "expired"; tooMany; ok200 "some_token";
                                 ok200 "expired"; ok200 "movie"])
                      sample_api world0))
    as (Hcall & _ & Hexpired).
  - reflexivity.
  - reflexivity.
  - repeat split. discriminate.
  - reflexivity.
  - reflexivity.
  - split.
    + apply Hexpired. repeat split. discriminate.
    + rewrite Hcall. reflexivity.
Defined.

(** C3, as the spec words it, fails: when the envelope of the retried
    request reports code 4 again, what [call] returns to its caller is the
    expired-token error. *)
Lemma call_surfaces_second_expired_token_error :
  snd (call (scripted [ok200 "expired"; ok200 "some_token"; ok200 "expired"])
            sample_api world0)
    = (None, Some (expiredTokenError "expired token")) /\
  ~ (forall (E : Env) (a : API) (w : World) (s : string),
        snd (snd (call E a w)) <> Some (expiredTokenError s)).
Proof.
  split; [reflexivity | intros H].
  apply (H (scripted [ok200 "expired"; ok200 "some_token"; ok200 "expired"])
           sample_api world0 "expired token").
  reflexivity.
Qed.

(** C3, amended: the expired-token error of the first interpretation is
    never returned to the caller.  [call] returns an expired-token error on
    one path only: the first envelope reported code 4, the renewal
    succeeded, the request was sent again and its envelope reports code 4
    too; the error returned is then the one the second interpretation
    built. *)
Theorem expired_token_error_only_after_retry :
  forall (E : Env) (a : API) (w : World) (data : TorrentResults) (s : string),
    snd (call E a w) = (data, Some (expiredTokenError s)) ->
    exists (a0 : API) (w0 w1 w2 w3 : World) (r1 r2 : APIResponse) (token : Token),
      ensureToken E a w = (a0, w0, None) /\
      getResults E (finalizeCategories a0) (assemble (finalizeCategories a0)) w0
        = (w1, inr r1) /\
      error_envelope 4 r1 /\
      renewToken E (finalizeCategories a0) w1 = (w2, (token, None)) /\
      getResults E (set_APIToken (finalizeCategories a0) token)
                 (assemble (finalizeCategories a0)) w2 = (w3, inr r2) /\
      error_envelope 4 r2 /\
      call E a w
        = (initQuery (set_APIToken (finalizeCategories a0) token), w3,
           (None, Some (expiredTokenError "expired token"))).
Proof.
  intros E a w data s Hres.
  rewrite call_unfold in Hres. simpl in Hres.
  pose proof (call_body_path E a w) as Hpath.
  rewrite call_unfold.
  destruct Hpath
    as [a0 w0 e Hens | a0 w0 w1 e Hens Hget | a0 w0 w1 r1 d err Hens Hget _ Hnot
        | a0 w0 w1 w2 r1 token e Hens Hget _ Hrenew
        | a0 w0 w1 w2 w3 r1 token e Hens Hget _ Hrenew Hget2
        | a0 w0 w1 w2 w3 r1 r2 token Hens Hget Henv Hrenew Hget2];
    simpl in Hres |- *.
  - inversion Hres; subst. apply ensureToken_error in Hens. discriminate.
  - inversion Hres; subst. apply getResults_error in Hget. discriminate.
  - inversion Hres; subst. exfalso. eapply Hnot. reflexivity.
  - inversion Hres; subst. apply renewToken_failure in Hrenew.
    destruct Hrenew as [Hne _]. discriminate.
  - inversion Hres; subst. apply getResults_error in Hget2. discriminate.
  - destruct (processResponse_expired_inv E _ _ _ _ Hres) as (Henv2 & _ & _).
    exists a0, w0, w1, w2, w3, r1, r2, token.
    rewrite (processResponse_expired E _ _ Henv2).
    repeat split; try assumption; apply Henv || apply Henv2.
Qed.

Lemma expired_token_error_only_after_retry_witness :
  exists (a0 : API) (w0 w1 w2 w3 : World) (r1 r2 : APIResponse) (token : Token),
    ensureToken (scripted [ok200 "some_token"; ok200 "expired"; ok200 "some_token";
                           tooMany; ok200 "expired"])
                (set_APIToken sample_api zeroToken) world0 = (a0, w0, None) /\
    getResults (scripted [ok200 "some_token"; ok200 "expired"; ok200 "some_token";
                          tooMany; ok200 "expired"])
               (finalizeCategories a0) (assemble (finalizeCategories a0)) w0
      = (w1, inr r1) /\
    error_envelope 4 r1 /\
    renewToken (scripted [ok200 "some_token"; ok200 "expired"; ok200 "some_token";
                          tooMany; ok200 "expired"])
               (finalizeCategories a0) w1 = (w2, (token, None)) /\
    getResults (scripted [ok200 "some_token"; ok200 "expired"; ok200 "some_token";
                          tooMany; ok200 "expired"])
               (set_APIToken (finalizeCategories a0) token)
               (assemble (finalizeCategories a0)) w2 = (w3, inr r2) /\
    error_envelope 4 r2 /\
    call (scripted [ok200 "some_token"; ok200 "expired"; ok200 "some_token";
                    tooMany; ok200 "expired"])
         (set_APIToken sample_api zeroToken) world0
      = (initQuery (set_APIToken (finalizeCategories a0) token), w3,
         (None, Some (expiredTokenError "expired token"))).
Proof.
  apply (expired_token_error_only_after_retry
           (scripted [ok200 "some_token"; ok200 "expired"; ok200 "some_token";
                      tooMany; ok200 "expired"])
           (set_APIToken sample_api zeroToken) world0 None "expired token").
  reflexivity.
Defined.

Lemma finalizeCategories_fields (a : API) :
  url (finalizeCategories a) = url a /\
  APIToken (finalizeCategories a) = APIToken a /\
  appID (finalizeCategories a) = appID a /\
  categories (finalizeCategories a) = categories a.
Proof.
  unfold finalizeCategories.
  destruct (0 <? List.length (categories a))%nat; repeat split.
Qed.

Lemma finalizeCategories_Query (a : API) :
  Query (finalizeCategories a)
    = match categories a with
      | [] => Query a
      | _ :: _ => Query a +++ "&category=" +++ Join (map Itoa (categories a)) ";"
      end.
Proof.
  unfold finalizeCategories. destruct (categories a); reflexivity.
Qed.

(** On the retry path the world [call_body] returns is the one the second
    [getResults] leaves. *)
Lemma call_body_retry_world (E : Env) (a a0 : API) (w w0 w1 w2 : World)
  (r1 : APIResponse) (token : Token) :
  ensureToken E a w = (a0, w0, None) ->
  getResults E (finalizeCategories a0) (assemble (finalizeCategories a0)) w0
    = (w1, inr r1) ->
  error_envelope tokenExpiredCode r1 ->
  renewToken E (finalizeCategories a0) w1 = (w2, (token, None)) ->
  snd (fst (call_body E a w))
    = fst (getResults E (set_APIToken (finalizeCategories a0) token)
                      (assemble (finalizeCategories a0)) w2).
Proof.
  intros Hens Hget Henv Hrenew. unfold call_body.
  rewrite Hens, Hget, (processResponse_expired E _ _ Henv). simpl.
  rewrite Hrenew.
  destruct (getResults E (set_APIToken (finalizeCategories a0) token)
              (assemble (finalizeCategories a0)) w2) as [w3 [e | r2]];
    reflexivity.
Qed.

(** C4: on the retry path the second [getResults] is given the string the
    first was given: the one assembled before the first request from the
    URL, the token held then, the query and the application identifier.
    The requests the transport sends for it ask for that same string. *)
Theorem call_retry_reuses_request_string :
  forall (E : Env) (a : API) (w : World) (a0 : API) (w0 w1 w2 : World)
         (r1 : APIResponse) (token : Token),
    ensureToken E a w = (a0, w0, None) ->
    getResults E (finalizeCategories a0) (assemble (finalizeCategories a0)) w0
      = (w1, inr r1) ->
    error_envelope 4 r1 ->
    renewToken E (finalizeCategories a0) w1 = (w2, (token, None)) ->
    let q := url a +++ "&token=" +++ Token_Token (APIToken a0)
                   +++ Query (finalizeCategories a) +++ "&app_id=" +++ appID a in
    (exists evs1,
       trace w1 = trace w0 ++ EvGetResults q :: evs1 /\
       Forall (transport_event q) evs1) /\
    (exists evs2,
       trace (snd (fst (call E a w))) = trace w2 ++ EvGetResults q :: evs2 /\
       Forall (transport_event q) evs2) /\
    calls_of (trace (snd (fst (call E a w))))
      = calls_of (trace w0) ++ [EvGetResults q; EvRenewToken; EvGetResults q].
Proof.
  intros E a w a0 w0 w1 w2 r1 token Hens Hget Henv Hrenew q.
  assert (Hq : assemble (finalizeCategories a0) = q).
  { destruct (ensureToken_fields E _ _ _ _ _ Hens) as (HQ & Hc & Hu & Hi).
    destruct (finalizeCategories_fields a0) as (Hu' & Ht' & Hi' & _).
    unfold assemble, q. rewrite Hu', Ht', Hi', Hu, Hi.
    rewrite !finalizeCategories_Query, Hc, HQ. reflexivity. }
  rewrite Hq in *.
  assert (Hw : snd (fst (call E a w))
               = fst (getResults E (set_APIToken (finalizeCategories a0) token) q w2)).
  { rewrite call_unfold. simpl. rewrite <- Hq.
    apply (call_body_retry_world E a a0 w w0 w1 w2 r1 token); rewrite ?Hq; assumption. }
  pose proof (getResults_trace E (finalizeCategories a0) q w0) as Ht1.
  pose proof (getResults_calls E (finalizeCategories a0) q w0) as Hc1.
  rewrite Hget in Ht1, Hc1. simpl in Ht1, Hc1.
  pose proof (renewToken_calls E (finalizeCategories a0) w1) as Hcr.
  rewrite Hrenew in Hcr. simpl in Hcr.
  split; [exact Ht1 | split].
  - rewrite Hw. apply getResults_trace.
  - rewrite Hw, getResults_calls, Hcr, Hc1, <- !app_assoc. reflexivity.
Qed.

Lemma call_retry_reuses_request_string_witness :
  calls_of (trace (snd (fst
     (call (scripted [ok200 "expired"; ok200 "some_token"; ok200 "movie"])
           (Limit sample_api 25) world0))))
    = [EvGetResults "http://127.0.0.1/?&token=test&mode=search&limit=25&app_id=test";
       EvRenewToken;
       EvGetResults "http://127.0.0.1/?&token=test&mode=search&limit=25&app_id=test"].
Proof.
  edestruct (call_retry_reuses_request_string
               (scripted [ok200 "expired"; ok200 "some_token"; ok200 "movie"])
               (Limit sample_api 25) world0)
    as (_ & _ & Hcalls).
  - reflexivity.
  - reflexivity.
  - repeat split. discriminate.
  - reflexivity.
  - exact Hcalls.
Defined.

(** ** Categories *)

Lemma Category_fold (cs : list Z) :
  forall a : API,
    categories (fold_left Category cs a) = categories a ++ cs /\
    Query (fold_left Category cs a) = Query a.
Proof.
  induction cs as [| c cs IH]; intros a; simpl.
  - rewrite app_nil_r. split; reflexivity.
  - destruct (IH (Category a c)) as [Hc Hq]. rewrite Hc, Hq. simpl.
    rewrite <- app_assoc. split; reflexivity.
Qed.

(** Once the token is in order, the first mark [call_body] leaves is the
    [getResults] for the assembled string. *)
Lemma call_body_first_request (E : Env) (a a0 : API) (w w0 : World) :
  ensureToken E a w = (a0, w0, None) ->
  exists rest,
    trace (snd (fst (call_body E a w)))
      = trace w0 ++ EvGetResults (assemble (finalizeCategories a0)) :: rest.
Proof.
  intros Hens.
  pose proof (fun b q v => getResults_trace E b q v) as Hg.
  pose proof (fun b v => renewToken_trace E b v) as Hr.
  destruct (call_body_path E a w)
    as [a1 w1' e Hens' | a1 w1' w1 e Hens' Hget | a1 w1' w1 r1 d err Hens' Hget _ _
        | a1 w1' w1 w2 r1 token e Hens' Hget _ Hrenew
        | a1 w1' w1 w2 w3 r1 token e Hens' Hget _ Hrenew Hget2
        | a1 w1' w1 w2 w3 r1 r2 token Hens' Hget _ Hrenew Hget2];
    rewrite Hens in Hens'; inversion Hens'; subst; simpl;
    destruct (Hg (finalizeCategories a1) (assemble (finalizeCategories a1)) w1')
      as (evs1 & Ht1 & _);
    rewrite Hget in Ht1; simpl in Ht1.
  - exists evs1. exact Ht1.
  - exists evs1. exact Ht1.
  - destruct (Hr (finalizeCategories a1) w1) as (evs2 & Ht2 & _).
    rewrite Hrenew in Ht2. simpl in Ht2.
    exists (evs1 ++ EvRenewToken :: evs2).
    rewrite Ht2, Ht1, <- app_assoc. reflexivity.
  - destruct (Hr (finalizeCategories a1) w1) as (evs2 & Ht2 & _).
    rewrite Hrenew in Ht2. simpl in Ht2.
    destruct (Hg (set_APIToken (finalizeCategories a1) token)
                 (assemble (finalizeCategories a1)) w2) as (evs3 & Ht3 & _).
    rewrite Hget2 in Ht3. simpl in Ht3.
    exists (evs1 ++ EvRenewToken :: evs2
              ++ EvGetResults (assemble (finalizeCategories a1)) :: evs3).
    rewrite Ht3, Ht2, Ht1. repeat (rewrite <- app_assoc; simpl). reflexivity.
  - destruct (Hr (finalizeCategories a1) w1) as (evs2 & Ht2 & _).
    rewrite Hrenew in Ht2. simpl in Ht2.
    destruct (Hg (set_APIToken (finalizeCategories a1) token)
                 (assemble (finalizeCategories a1)) w2) as (evs3 & Ht3 & _).
    rewrite Hget2 in Ht3. simpl in Ht3.
    exists (evs1 ++ EvRenewToken :: evs2
              ++ EvGetResults (assemble (finalizeCategories a1)) :: evs3).
    rewrite Ht3, Ht2, Ht1. repeat (rewrite <- app_assoc; simpl). reflexivity.
Qed.

(** C8: [Category], called with [cs] one after the other, appends [cs] to
    the category list in that order and leaves the query string alone; on a
    builder with no categories the list is then [cs], of the same length.
    In [call], a list that is not empty is joined with [;] in that order
    and appended to the query as one [&category=] parameter, and the string
    given to the first [getResults] is assembled from that query. *)
Theorem Category_accumulates_until_call :
  forall (E : Env) (a : API) (cs : list Z),
    let b := fold_left Category cs a in
    categories b = categories a ++ cs /\
    (categories a = [] ->
       categories b = cs /\ List.length (categories b) = List.length cs) /\
    Query b = Query a /\
    (categories b <> [] ->
       Query (finalizeCategories b)
         = Query b +++ "&category=" +++ Join (map Itoa (categories b)) ";") /\
    (forall (w : World) (a0 : API) (w0 : World),
       ensureToken E b w = (a0, w0, None) -> categories b <> [] ->
       exists rest,
         trace (snd (fst (call E b w)))
           = trace w0
               ++ EvGetResults
                    (url b +++ "&token=" +++ Token_Token (APIToken a0)
                       +++ (Query b +++ "&category="
                              +++ Join (map Itoa (categories b)) ";")
                       +++ "&app_id=" +++ appID b) :: rest).
Proof.
  intros E a cs b.
  destruct (Category_fold cs a) as [Hc Hq]. fold b in Hc, Hq.
  assert (Hfin : categories b <> [] ->
            Query (finalizeCategories b)
              = Query b +++ "&category=" +++ Join (map Itoa (categories b)) ";").
  { intros Hne. rewrite finalizeCategories_Query.
    destruct (categories b); [contradiction | reflexivity]. }
  split; [exact Hc |].
  split; [intros Hnil; rewrite Hc, Hnil; split; reflexivity |].
  split; [exact Hq |].
  split; [exact Hfin |].
  intros w a0 w0 Hens Hne.
  destruct (call_body_first_request E b a0 w w0 Hens) as (rest & Ht).
  exists rest. rewrite call_unfold. simpl. rewrite Ht.
  destruct (ensureToken_fields E _ _ _ _ _ Hens) as (HQ & Hcat & Hu & Hi).
  destruct (finalizeCategories_fields a0) as (Hu' & Ht' & Hi' & _).
  assert (HQfin : Query (finalizeCategories a0)
                  = Query b +++ "&category=" +++ Join (map Itoa (categories b)) ";").
  { rewrite <- (Hfin Hne), !finalizeCategories_Query, Hcat, HQ. reflexivity. }
  unfold assemble. rewrite Hu', Ht', Hi', Hu, Hi, HQfin. reflexivity.
Qed.

Lemma Category_accumulates_until_call_witness :
  categories (Category (Category (Category sample_api 1) 2) 3) = [1; 2; 3] /\
  Query (finalizeCategories (Category (Category (Category sample_api 1) 2) 3))
    = "&mode=search&category=1;2;3" /\
  exists rest,
    trace (snd (fst (call (scripted [ok200 "movie"])
                          (Category (Category (Category sample_api 1) 2) 3)
                          world0)))
      = EvGetResults
          "http://127.0.0.1/?&token=test&mode=search&category=1;2;3&app_id=test"
          :: rest.
Proof.
  pose proof (Category_accumulates_until_call
                (scripted [ok200 "movie"]) sample_api [1; 2; 3])
    as (Hcats & _ & _ & Hquery & Hcall).
  split; [exact Hcats | split].
  - apply Hquery. simpl. discriminate.
  - destruct (Hcall world0 (Category (Category (Category sample_api 1) 2) 3)
                    world0 eq_refl ltac:(simpl; discriminate)) as [rest Hrest].
    exists rest. exact Hrest.
Defined.

(** ** Renewals that fail *)

Lemma call_body_no_token (E : Env) (a : API) (w w1 : World) (token : Token)
  (e : error) :
  IsValid (clock w) (APIToken a) = false ->
  renewToken E a w = (w1, (token, Some e)) ->
  call_body E a w = (set_APIToken a token, w1, (None, Some e)).
Proof.
  intros Hinvalid Hrenew. unfold call_body, ensureToken.
  rewrite Hinvalid. simpl. rewrite Hrenew. reflexivity.
Qed.

(** C9, as the claim words it, fails when the renewal fails in the decoder:
    the token stored is the variable the decoder was given, and the decoder
    may have written a credential into it before it reported the error.
    Here the stored token was [old]; the body of the renewal gives the token
    [abc] and then a [token] key that is a number. *)
Lemma failed_renewal_can_store_a_credential :
  let run := call (scripted [ok200 "twice"])
                  (set_APIToken sample_api (mkToken "old" (-5))) world0 in
  (exists e, snd (snd run) = Some (TokenDecodeError e)) /\
  APIToken (fst (fst run)) = mkToken "abc" 0 /\
  APIToken (fst (fst run)) <> zeroToken /\
  ~ (forall (E : Env) (a : API) (w w1 : World) (token : Token) (e : error),
        IsValid (clock w) (APIToken a) = false ->
        renewToken E a w = (w1, (token, Some e)) ->
        snd (snd (call E a w)) = Some e /\
        APIToken (fst (fst (call E a w))) = zeroToken).
Proof.
  split; [eexists; reflexivity |].
  split; [reflexivity |].
  split; [discriminate |].
  intros H.
  edestruct (H (scripted [ok200 "twice"])
               (set_APIToken sample_api (mkToken "old" (-5))) world0)
    as [_ Hzero]; [reflexivity | reflexivity | discriminate].
Qed.

Lemma renewToken_failure_exact (E : Env) (a : API) (w w' : World)
  (token : Token) (e : error) :
  renewToken E a w = (w', (token, Some e)) -> renewal_failed E a w w' token e.
Proof.
  unfold renewToken, renewal_failed.
  destruct (makeRequest E a _ (record EvRenewToken w)) as [w1 [e1 | resp]].
  - intros H; inversion H; subst. left. split; reflexivity.
  - destruct (decode_Token E (Body resp) (Token_Token zeroToken)) as [cred [le |]] eqn:Hdec;
      intros H; inversion H; subst.
    right. exists resp, le. repeat split. exact Hdec.
Qed.

(** C9, amended: when [call] renews the token, at entry or on the retry
    path, and the renewal fails, [call] returns the error of the renewal,
    and the token it has stored by then is the one the failed renewal
    returned, not the one held before.  That token is the zero token when
    the request for the token failed.  When the response came and its body
    did not decode, the token has the zero expiry and its credential is
    what the decoder left there, after it was given the body of that
    response and the empty credential. *)
Theorem failed_renewal_overwrites_token :
  forall (E : Env) (a : API) (w : World),
    (forall (w1 : World) (token : Token) (e : error),
       IsValid (clock w) (APIToken a) = false ->
       renewToken E a w = (w1, (token, Some e)) ->
       call E a w = (initQuery (set_APIToken a token), w1, (None, Some e)) /\
       APIToken (fst (fst (call E a w))) = token /\
       renewal_failed E a w w1 token e) /\
    (forall (a0 : API) (w0 w1 w2 : World) (r1 : APIResponse) (token : Token)
            (e : error),
       ensureToken E a w = (a0, w0, None) ->
       getResults E (finalizeCategories a0) (assemble (finalizeCategories a0)) w0
         = (w1, inr r1) ->
       error_envelope 4 r1 ->
       renewToken E (finalizeCategories a0) w1 = (w2, (token, Some e)) ->
       call E a w
         = (initQuery (set_APIToken (finalizeCategories a0) token), w2,
            (None, Some e)) /\
       APIToken (fst (fst (call E a w))) = token /\
       renewal_failed E (finalizeCategories a0) w1 w2 token e).
Proof.
  intros E a w. split.
  - intros w1 token e Hinvalid Hrenew.
    pose proof (renewToken_failure_exact E _ _ _ _ _ Hrenew) as Hfailed.
    rewrite call_unfold, (call_body_no_token E a w w1 token e Hinvalid Hrenew).
    repeat split. exact Hfailed.
  - intros a0 w0 w1 w2 r1 token e Hens Hget Henv Hrenew.
    pose proof (renewToken_failure_exact E _ _ _ _ _ Hrenew) as Hfailed.
    rewrite call_unfold,
      (call_body_renew_failed E a a0 w w0 w1 w2 r1 token e Hens Hget Henv Hrenew).
    repeat split. exact Hfailed.
Qed.

Lemma failed_renewal_overwrites_token_witness :
  (APIToken (fst (fst (call (scripted [error500])
                            (set_APIToken sample_api (mkToken "old" (-5)))
                            world0))) = zeroToken /\
   renewal_failed (scripted [error500])
                  (set_APIToken sample_api (mkToken "old" (-5))) world0
                  {| clock := 1;
                     trace := [EvRenewToken;
                               EvDo "http://127.0.0.1/?get_token=get_token&app_id=test"] |}
                  zeroToken (StatusError 500 "500 Internal Server Error")) /\
  (APIToken (fst (fst (call (scripted [ok200 "twice"])
                            (set_APIToken sample_api (mkToken "old" (-5)))
                            world0))) = mkToken "abc" 0 /\
   renewal_failed (scripted [ok200 "twice"])
                  (set_APIToken sample_api (mkToken "old" (-5))) world0
                  {| clock := 1;
                     trace := [EvRenewToken;
                               EvDo "http://127.0.0.1/?get_token=get_token&app_id=test"] |}
                  (mkToken "abc" 0)
                  (TokenDecodeError
                     "cannot unmarshal number into Go struct field Token.token of type string")) /\
  APIToken (fst (fst (call (scripted [ok200 "expired"; error500])
                           sample_api world0))) = zeroToken /\
  APIToken (fst (fst (call (scripted [ok200 "expired"; ok200 "twice"])
                           sample_api world0))) = mkToken "abc" 0.
Proof.
  split; [| split; [| split]].
  - edestruct (proj1 (failed_renewal_overwrites_token
                        (scripted [error500])
                        (set_APIToken sample_api (mkToken "old" (-5))) world0))
      as (_ & Hstored & Hfailed).
    + reflexivity.
    + reflexivity.
    + split; [exact Hstored | exact Hfailed].
  - edestruct (proj1 (failed_renewal_overwrites_token
                        (scripted [ok200 "twice"])
                        (set_APIToken sample_api (mkToken "old" (-5))) world0))
      as (_ & Hstored & Hfailed).
    + reflexivity.
    + reflexivity.
    + split; [exact Hstored | exact Hfailed].
  - edestruct (proj2 (failed_renewal_overwrites_token
                        (scripted [ok200 "expired"; error500])
                        sample_api world0))
      as (_ & Hstored & _).
    + reflexivity.
    + reflexivity.
    + repeat split. discriminate.
    + reflexivity.
    + exact Hstored.
  - edestruct (proj2 (failed_renewal_overwrites_token
                        (scripted [ok200 "expired"; ok200 "twice"])
                        sample_api world0))
      as (_ & Hstored & _).
    + reflexivity.
    + reflexivity.
    + repeat split. discriminate.
    + reflexivity.
    + exact Hstored.
Defined.

(** ** The two empty results *)

(** C10: the envelope [call] interprets last is the one of the first
    request, or, after a first envelope with code 4 and a renewal, the one
    of the second request.  On either path, when that envelope holds a
    payload that the decoder turns into the empty slice, as it does the
    array of no elements, [call] returns that slice, empty and not nil, and
    no error; when it holds no payload and reports code 10 or 20, [call]
    returns the nil slice and no error.  The two results are different
    values. *)
Theorem empty_results_are_distinguishable :
  forall (E : Env) (a : API) (w : World),
    (forall (a0 : API) (w0 w1 : World) (r : APIResponse),
       ensureToken E a w = (a0, w0, None) ->
       getResults E (finalizeCategories a0) (assemble (finalizeCategories a0)) w0
         = (w1, inr r) ->
       (forall raw,
          Torrents r = Some raw -> json_Unmarshal E raw None = (Some [], None) ->
          snd (call E a w) = (Some [], None)) /\
       (error_envelope 10 r \/ error_envelope 20 r ->
          snd (call E a w) = (None, None))) /\
    (forall (a0 : API) (w0 w1 w2 w3 : World) (r1 r2 : APIResponse) (token : Token),
       ensureToken E a w = (a0, w0, None) ->
       getResults E (finalizeCategories a0) (assemble (finalizeCategories a0)) w0
         = (w1, inr r1) ->
       error_envelope 4 r1 ->
       renewToken E (finalizeCategories a0) w1 = (w2, (token, None)) ->
       getResults E (set_APIToken (finalizeCategories a0) token)
                  (assemble (finalizeCategories a0)) w2 = (w3, inr r2) ->
       (forall raw,
          Torrents r2 = Some raw -> json_Unmarshal E raw None = (Some [], None) ->
          snd (call E a w) = (Some [], None)) /\
       (error_envelope 10 r2 \/ error_envelope 20 r2 ->
          snd (call E a w) = (None, None))) /\
    (Some [] : TorrentResults) <> None.
Proof.
  intros E a w.
  assert (Hpayload : forall b r raw,
            Torrents r = Some raw -> json_Unmarshal E raw None = (Some [], None) ->
            processResponse E b r = (Some [], None)).
  { intros b r raw Hraw Hdec.
    rewrite (processResponse_payload E b r raw Hraw), Hdec. reflexivity. }
  split; [| split; [| discriminate]].
  - intros a0 w0 w1 r Hens Hget. split.
    + intros raw Hraw Hdec.
      rewrite call_unfold, (call_body_first E a a0 w w0 w1 r Hens Hget).
      * simpl. apply (Hpayload _ r raw Hraw Hdec).
      * rewrite (Hpayload _ r raw Hraw Hdec). intros s. discriminate.
    + intros Hbenign.
      assert (Hproc : processResponse E (finalizeCategories a0) r = (None, None))
        by (apply processResponse_benign; exact Hbenign).
      rewrite call_unfold, (call_body_first E a a0 w w0 w1 r Hens Hget).
      * simpl. exact Hproc.
      * rewrite Hproc. intros s. discriminate.
  - intros a0 w0 w1 w2 w3 r1 r2 token Hens Hget Henv Hrenew Hget2.
    rewrite call_unfold,
      (call_body_retry E a a0 w w0 w1 w2 w3 r1 r2 token Hens Hget Henv Hrenew Hget2).
    simpl. split.
    + intros raw Hraw Hdec. apply (Hpayload _ r2 raw Hraw Hdec).
    + intros Hbenign. apply processResponse_benign. exact Hbenign.
Qed.

Lemma empty_results_are_distinguishable_witness :
  snd (call (scripted [ok200 "empty"]) sample_api world0) = (Some [], None) /\
  snd (call (scripted [ok200 "noresults"]) sample_api world0) = (None, None) /\
  snd (call (scripted [ok200 "notfound"]) sample_api world0) = (None, None) /\
  snd (call (scripted [ok200 "expired"; ok200 "some_token"; ok200 "empty"])
            sample_api world0) = (Some [], None) /\
  snd (call (scripted [ok200 "expired"; ok200 "some_token"; ok200 "noresults"])
            sample_api world0) = (None, None).
Proof.
  split; [| split; [| split; [| split]]].
  - edestruct (proj1 (empty_results_are_distinguishable
                        (scripted [ok200 "empty"]) sample_api world0))
      as (Hempty & _).
    + reflexivity.
    + reflexivity.
    + apply (Hempty "[]"); reflexivity.
  - edestruct (proj1 (empty_results_are_distinguishable
                        (scripted [ok200 "noresults"]) sample_api world0))
      as (_ & Hnil).
    + reflexivity.
    + reflexivity.
    + apply Hnil. right. repeat split. discriminate.
  - edestruct (proj1 (empty_results_are_distinguishable
                        (scripted [ok200 "notfound"]) sample_api world0))
      as (_ & Hnil).
    + reflexivity.
    + reflexivity.
    + apply Hnil. left. repeat split. discriminate.
  - edestruct (proj1 (proj2 (empty_results_are_distinguishable
                        (scripted [ok200 "expired"; ok200 "some_token"; ok200 "empty"])
                        sample_api world0)))
      as (Hempty & _).
    + reflexivity.
    + reflexivity.
    + repeat split. discriminate.
    + reflexivity.
    + reflexivity.
    + apply (Hempty "[]"); reflexivity.
  - edestruct (proj1 (proj2 (empty_results_are_distinguishable
                        (scripted [ok200 "expired"; ok200 "some_token"; ok200 "noresults"])
                        sample_api world0)))
      as (_ & Hnil).
    + reflexivity.
    + reflexivity.
    + repeat split. discriminate.
    + reflexivity.
    + reflexivity.
    + apply Hnil. right. repeat split. discriminate.
Defined.

(** * Further properties *)

(** ** Strings *)

Lemma str_append_assoc (s t u : string) : (s +++ t) +++ u = s +++ t +++ u.
Proof.
  induction s as [| c s IH]; simpl; [reflexivity | rewrite IH; reflexivity].
Qed.

Lemma str_append_nil_r (s : string) : s +++ "" = s.
Proof.
  induction s as [| c s IH]; simpl; [reflexivity | rewrite IH; reflexivity].
Qed.

Lemma str_length_append (s t : string) :
  String.length (s +++ t) = (String.length s + String.length t)%nat.
Proof.
  induction s as [| c s IH]; simpl; [reflexivity | rewrite IH; reflexivity].
Qed.

Lemma str_substring_all (t : string) : substring 0 (String.length t) t = t.
Proof.
  induction t as [| c t IH]; simpl; [reflexivity | rewrite IH; reflexivity].
Qed.

Lemma str_substring_skip (s t : string) (m : nat) :
  substring (String.length s) m (s +++ t) = substring 0 m t.
Proof.
  induction s as [| c s IH]; simpl; [reflexivity | exact IH].
Qed.

(** A string ends with what was appended to it last. *)
Lemma HasSuffix_append (s t : string) : HasSuffix (s +++ t) t = true.
Proof.
  unfold HasSuffix. rewrite str_length_append.
  replace (String.length s + String.length t - String.length t)%nat
    with (String.length s) by lia.
  rewrite str_substring_skip, str_substring_all, String.eqb_refl.
  rewrite andb_true_r. apply Nat.leb_le. lia.
Qed.

(** ** The cases of [TestCall] *)

Example test_call_empty_torrent_response :
  Legacy.test_call Legacy.valid_api
    (fun _ n => (n, inr (mkAPIResponse (Some "[]") "" 0)))
    (fun n => (n, (zeroToken, None)))
    = (Some [], None).
Proof. reflexivity. Qed.

Example test_call_first_query_returns_error :
  Legacy.test_call Legacy.valid_api
    (fun _ n => (n, inl (Legacy.foreign "error")))
    (fun n => (n, (zeroToken, None)))
    = (None, Some (Legacy.foreign "error")).
Proof. reflexivity. Qed.

Example test_call_expired_then_second_query_OK :
  Legacy.test_call Legacy.valid_api
    (Legacy.expired_once (inr (mkAPIResponse (Some "[]") "" 0)))
    (fun n => (n, (zeroToken, None)))
    = (Some [], None).
Proof. reflexivity. Qed.

Example test_call_expired_then_second_query_error :
  Legacy.test_call Legacy.valid_api
    (Legacy.expired_once (inl (Legacy.foreign "test")))
    (fun n => (n, (zeroToken, None)))
    = (None, Some (Legacy.foreign "test")).
Proof. reflexivity. Qed.

Example test_call_token_invalid_renew_returns_error :
  Legacy.test_call (Legacy.mkAPI "" zeroToken [])
    (fun _ n => (n, inl (Legacy.foreign "not reached")))
    (fun n => (n, (zeroToken, Some (Legacy.foreign "token error"))))
    = (None, Some (Legacy.foreign "token error")).
Proof. reflexivity. Qed.

Example test_call_error_in_first_response :
  Legacy.test_call Legacy.valid_api
    (fun _ n => (n, inr (mkAPIResponse None "error" 5)))
    (fun n => (n, (zeroToken, None)))
    = (None, Some (Legacy.APIError "" "error" 5)).
Proof. reflexivity. Qed.

Example test_call_expired_then_error_in_second_response :
  Legacy.test_call Legacy.valid_api
    (Legacy.expired_once (inr (mkAPIResponse None "error" 5)))
    (fun n => (n, (zeroToken, None)))
    = (None, Some (Legacy.APIError "" "error" 5)).
Proof. reflexivity. Qed.

Example test_call_expired_then_error_in_renew :
  Legacy.test_call Legacy.valid_api
    (fun _ n => (n, inr (mkAPIResponse None "error" 4)))
    (fun n => (n, (zeroToken, Some (Legacy.foreign "error"))))
    = (None, Some (Legacy.foreign "error")).
Proof. reflexivity. Qed.

Example test_call_error_in_unmarshal :
  Legacy.test_call Legacy.valid_api
    (fun _ n => (n, inr (mkAPIResponse (Some "") "" 0)))
    (fun n => (n, (zeroToken, None)))
    = (None, Some (Legacy.UnmarshalError "" "unexpected end of JSON input")).
Proof. reflexivity. Qed.

Example test_call_no_torrents_found :
  Legacy.test_call Legacy.valid_api
    (fun _ n => (n, inr (mkAPIResponse None "error" 20)))
    (fun n => (n, (zeroToken, None)))
    = (None, None).
Proof. reflexivity. Qed.

(** ** Query builder *)

(** X1: after any chainable operation that takes a parameter for the query,
    the query ends with exactly that parameter, so the check of the tests
    answers true with no text, for every receiver and every value; the
    operation leaves the token, the categories and the configuration as
    they were.  [Category] leaves the query as it was. *)
Theorem builder_appends_its_parameter :
  forall (E : Env) (a : API) (v : string) (n : Z) (b : bool),
    let ends_with (a' : API) (p : string) :=
      performQueryStringTest a' p = (true, "") /\
      Query a' = Query a +++ p /\
      APIToken a' = APIToken a /\ categories a' = categories a /\
      same_config a' a in
    ends_with (SearchString E a v) ("&search_string=" +++ url_QueryEscape E v) /\
    ends_with (SearchTVDB a v) ("&search_tvdb=" +++ v) /\
    ends_with (SearchIMDb a v) ("&search_imdb=" +++ v) /\
    ends_with (SearchTheMovieDb a v) ("&search_themoviedb=" +++ v) /\
    ends_with (Format a v) ("&format=" +++ v) /\
    ends_with (Sort a v) ("&sort=" +++ v) /\
    ends_with (Limit a n) ("&limit=" +++ Itoa n) /\
    ends_with (MinSeeders a n) ("&min_seeders=" +++ Itoa n) /\
    ends_with (MinLeechers a n) ("&min_leechers=" +++ Itoa n) /\
    ends_with (Ranked a b) (if b then "&ranked=1" else "&ranked=0") /\
    (Query (Category a n) = Query a /\ APIToken (Category a n) = APIToken a /\
     same_config (Category a n) a).
Proof.
  intros E a v n b ends_with.
  assert (Hends : forall p, ends_with (set_Query a (Query a +++ p)) p).
  { intros p. unfold ends_with, performQueryStringTest, same_config. simpl.
    rewrite HasSuffix_append. simpl. repeat split. }
  repeat split; try apply Hends.
  all: destruct b; apply Hends.
Qed.

(** ** Transport: what an outcome says about the run *)

Section TransportOutcome.

Variable E : Env.
Variable a : API.
Variable q : string.

Lemma makeRequest_loop_step (fuel : nat) (m : Z) (w : World) :
  makeRequest_loop E fuel a q m w
    = match http_NewRequest E q with
      | Some e => (w, inl (NewRequestError e))
      | None =>
          match client_Do E (sent w) q with
          | DoFail e => (send E q w, inl (ClientError e))
          | DoOk resp =>
              if StatusCode resp =? StatusOK then (send E q w, inr resp)
              else if StatusCode resp =? StatusTooManyRequests then
                if wrap64 (m - 1) >? 0 then
                  match fuel with
                  | S fuel' =>
                      makeRequest_loop E fuel' a q (wrap64 (m - 1))
                        (time_Sleep (reqDelay a) (send E q w))
                  | O => (send E q w, inl MaxAttemptsError)
                  end
                else (send E q w, inl MaxAttemptsError)
              else (send E q w,
                    inl (StatusError (StatusCode resp) (Status resp)))
          end
      end.
Proof. destruct fuel; reflexivity. Qed.

(** A request that cannot be created is not sent. *)
Lemma makeRequest_no_request (w : World) (le : lib_error) :
  http_NewRequest E q = Some le ->
  makeRequest E a q w = (w, inl (NewRequestError le)).
Proof.
  intros Hnew. unfold makeRequest. rewrite makeRequest_loop_step, Hnew.
  reflexivity.
Qed.

Hypothesis NewRequest_ok : http_NewRequest E q = None.

Lemma makeRequest_loop_shape (fuel : nat) :
  forall (m : Z) (w : World),
    exists n,
      (1 <= n <= S fuel)%nat /\
      trace (fst (makeRequest_loop E fuel a q m w))
        = trace w ++ attempts_trace q (reqDelay a) n /\
      sent (fst (makeRequest_loop E fuel a q m w)) = (sent w + n)%nat.
Proof.
  assert (Hone : forall (w : World) (f : nat),
            exists n,
              (1 <= n <= S f)%nat /\
              trace (send E q w) = trace w ++ attempts_trace q (reqDelay a) n /\
              sent (send E q w) = (sent w + n)%nat).
  { intros w f. exists 1%nat. rewrite sent_send.
    split; [lia | split; [reflexivity | lia]]. }
  induction fuel as [| fuel IH]; intros m w;
    rewrite makeRequest_loop_step, NewRequest_ok;
    (destruct (client_Do E (sent w) q) as [e | r]; [apply Hone |]);
    (destruct (StatusCode r =? StatusOK); [apply Hone |]);
    (destruct (StatusCode r =? StatusTooManyRequests); [| apply Hone]);
    (destruct (wrap64 (m - 1) >? 0); [| apply Hone]).
  - apply Hone.
  - destruct (IH (wrap64 (m - 1)) (time_Sleep (reqDelay a) (send E q w)))
      as (n & Hn & Ht & Hs).
    exists (S n). split; [lia | split].
    + rewrite Ht. destruct n as [| k]; [lia |].
      simpl. rewrite <- !app_assoc. reflexivity.
    + rewrite Hs, sent_time_Sleep, sent_send. lia.
Qed.

Lemma makeRequest_loop_outcome (fuel : nat) :
  forall (m : Z) (w w' : World) (out : error + Response),
    (Z.to_nat (wrap64 (m - 1)) <= fuel)%nat ->
    makeRequest_loop E fuel a q m w = (w', out) ->
    (sent w < sent w')%nat /\
    (forall i, (sent w <= i < pred (sent w'))%nat -> rate_limited E q i) /\
    match out with
    | inr resp =>
        client_Do E (pred (sent w')) q = DoOk resp /\ StatusCode resp = StatusOK
    | inl e =>
        (exists le, e = ClientError le /\
                    client_Do E (pred (sent w')) q = DoFail le) \/
        (exists r, e = StatusError (StatusCode r) (Status r) /\
                   client_Do E (pred (sent w')) q = DoOk r /\
                   StatusCode r <> StatusOK /\
                   StatusCode r <> StatusTooManyRequests) \/
        (e = MaxAttemptsError /\ rate_limited E q (pred (sent w')) /\
         sent w' = (sent w + S (Z.to_nat (wrap64 (m - 1))))%nat)
    end.
Proof.
  induction fuel as [| fuel IH]; intros m w w' out Hfuel;
    rewrite makeRequest_loop_step, NewRequest_ok;
    destruct (client_Do E (sent w) q) as [le | r] eqn:Hdo.
  1, 3: intros H; inversion H; subst; rewrite sent_send; simpl;
    split; [lia | split; [intros i Hi; lia |]];
    left; exists le; split; [reflexivity | exact Hdo].
  all: destruct (Z.eqb_spec (StatusCode r) StatusOK) as [Hok | Hok];
    [intros H; inversion H; subst; rewrite sent_send; simpl;
     split; [lia | split; [intros i Hi; lia | split; assumption]] |].
  all: destruct (Z.eqb_spec (StatusCode r) StatusTooManyRequests) as [Hmany | Hmany];
    [| intros H; inversion H; subst; rewrite sent_send; simpl;
       split; [lia | split; [intros i Hi; lia |]];
       right; left; exists r; repeat split; assumption].
  all: destruct (Z.gtb_spec (wrap64 (m - 1)) 0) as [Hpos | Hle];
    [| intros H; inversion H; subst; rewrite sent_send; simpl;
       split; [lia | split; [intros i Hi; lia |]];
       right; right; split; [reflexivity | split; [exists r; split; assumption | lia]]].
  - lia.
  - intros Hrun.
    apply IH in Hrun; [| rewrite (wrap64_pred_pos m Hpos); lia].
    rewrite sent_time_Sleep, sent_send in Hrun.
    destruct Hrun as (Hlt & Hbefore & Hout).
    split; [lia | split].
    + intros i Hi. destruct (Nat.eq_dec i (sent w)) as [-> | Hne].
      * exists r. split; assumption.
      * apply Hbefore. lia.
    + destruct out as [e | resp]; [| exact Hout].
      destruct Hout as [Hc | [Hs | (He & Hlast & Hsent)]];
        [left; exact Hc | right; left; exact Hs |].
      right; right. split; [exact He | split; [exact Hlast |]].
      rewrite Hsent, (wrap64_pred_pos m Hpos). lia.
Qed.

End TransportOutcome.

(** X2: [makeRequest] sends nothing when the request cannot be created.
    Otherwise it sends at least one request and at most [attempts a], and
    what it leaves in the trace is those requests with one sleep of
    [reqDelay] between each two of them: it never sleeps before the first
    request or after the last. *)
Theorem makeRequest_sends_between_one_and_attempts :
  forall (E : Env) (a : API) (q : string) (w : World),
    (forall le, http_NewRequest E q = Some le ->
       makeRequest E a q w = (w, inl (NewRequestError le))) /\
    (http_NewRequest E q = None ->
       exists n,
         (1 <= n <= attempts a)%nat /\
         trace (fst (makeRequest E a q w))
           = trace w ++ attempts_trace q (reqDelay a) n /\
         sent (fst (makeRequest E a q w)) = (sent w + n)%nat).
Proof.
  intros E a q w. split.
  - intros le Hnew. apply makeRequest_no_request. exact Hnew.
  - intros Hnew. unfold makeRequest, attempts.
    apply makeRequest_loop_shape. exact Hnew.
Qed.

Lemma makeRequest_sends_between_one_and_attempts_witness :
  exists n,
    (1 <= n <= 10)%nat /\
    trace (fst (makeRequest (scripted [tooMany; ok200 "movie"]) sample_api "q" world0))
      = attempts_trace "q" 0 n /\
    sent (fst (makeRequest (scripted [tooMany; ok200 "movie"]) sample_api "q" world0))
      = n.
Proof.
  apply (proj2 (makeRequest_sends_between_one_and_attempts
                  (scripted [tooMany; ok200 "movie"]) sample_api "q" world0)).
  reflexivity.
Defined.

(** The run of [makeRequest], read off its result. *)
Lemma makeRequest_run :
  forall (E : Env) (a : API) (q : string) (w w' : World) (out : error + Response),
    http_NewRequest E q = None ->
    makeRequest E a q w = (w', out) ->
    (sent w < sent w' <= sent w + attempts a)%nat /\
    (forall i, (sent w <= i < pred (sent w'))%nat -> rate_limited E q i) /\
    match out with
    | inr resp =>
        client_Do E (pred (sent w')) q = DoOk resp /\ StatusCode resp = 200
    | inl e =>
        (exists le, e = ClientError le /\
                    client_Do E (pred (sent w')) q = DoFail le) \/
        (exists r, e = StatusError (StatusCode r) (Status r) /\
                   client_Do E (pred (sent w')) q = DoOk r /\
                   StatusCode r <> 200 /\ StatusCode r <> 429) \/
        (e = MaxAttemptsError /\ rate_limited E q (pred (sent w')) /\
         sent w' = (sent w + attempts a)%nat)
    end.
Proof.
  intros E a q w w' out Hnew Hrun.
  destruct (makeRequest_loop_shape E a q Hnew
              (Z.to_nat (wrap64 (maxRetries a - 1))) (maxRetries a) w)
    as (n & Hn & _ & Hsent).
  unfold makeRequest in Hrun. rewrite Hrun in Hsent. simpl in Hsent.
  destruct (makeRequest_loop_outcome E a q Hnew _ _ _ _ _ (Nat.le_refl _) Hrun)
    as (Hlt & Hbefore & Hout).
  split; [unfold attempts; lia | split; [exact Hbefore | exact Hout]].
Qed.

(** X3: what [makeRequest] returns tells how the run went.  Every request
    before the last was answered 429.  A response is returned only when the
    last request was answered 200, and it is that answer.  An error is the
    failure of the last request in the client, or carries the status of the
    last answer, which is then neither 200 nor 429, or says that the
    attempts are used up, and then [attempts a] requests were sent and the
    last was answered 429 as well. *)
Theorem makeRequest_outcome :
  forall (E : Env) (a : API) (q : string) (w w' : World) (out : error + Response),
    http_NewRequest E q = None ->
    makeRequest E a q w = (w', out) ->
    (sent w < sent w' <= sent w + attempts a)%nat /\
    (forall i, (sent w <= i < pred (sent w'))%nat -> rate_limited E q i) /\
    match out with
    | inr resp =>
        client_Do E (pred (sent w')) q = DoOk resp /\ StatusCode resp = 200
    | inl e =>
        (exists le, e = ClientError le /\
                    client_Do E (pred (sent w')) q = DoFail le) \/
        (exists r, e = StatusError (StatusCode r) (Status r) /\
                   client_Do E (pred (sent w')) q = DoOk r /\
                   StatusCode r <> 200 /\ StatusCode r <> 429) \/
        (e = MaxAttemptsError /\ rate_limited E q (pred (sent w')) /\
         sent w' = (sent w + attempts a)%nat)
    end.
Proof. exact makeRequest_run. Qed.

Lemma makeRequest_outcome_witness :
  rate_limited (scripted [tooMany; tooMany; error500]) "q" 0 /\
  rate_limited (scripted [tooMany; tooMany; error500]) "q" 1 /\
  exists w',
    makeRequest (scripted [tooMany; tooMany; error500]) sample_api "q" world0
      = (w', inl (StatusError 500 "500 Internal Server Error")) /\
    sent w' = 3%nat.
Proof.
  destruct (makeRequest (scripted [tooMany; tooMany; error500]) sample_api "q" world0)
    as [w' out] eqn:Hrun.
  destruct (makeRequest_outcome
              (scripted [tooMany; tooMany; error500]) sample_api "q" world0
              w' out eq_refl Hrun) as (_ & Hbefore & _).
  vm_compute in Hrun. inversion Hrun; subst. clear Hrun.
  split; [apply Hbefore; vm_compute; lia | split; [apply Hbefore; vm_compute; lia |]].
  eexists. split; reflexivity.
Defined.

Lemma makeRequest_error_kinds (E : Env) (a : API) (q : string) (w w' : World)
  (e : error) :
  makeRequest E a q w = (w', inl e) -> transport_error e.
Proof.
  intros Hrun. destruct (http_NewRequest E q) as [le |] eqn:Hnew.
  - rewrite (makeRequest_no_request E a q w le Hnew) in Hrun.
    inversion Hrun. left. exists le. reflexivity.
  - destruct (makeRequest_run E a q w w' (inl e) Hnew Hrun)
      as (_ & _ & [(le & -> & _) | [(r & -> & _ & Hok & Hmany) | (-> & _)]]).
    + right; left. exists le. reflexivity.
    + right; right; right. exists (StatusCode r), (Status r). repeat split; assumption.
    + right; right; left. reflexivity.
Qed.

Lemma makeRequest_sent_bound (E : Env) (a : API) (q : string) (w : World) :
  (sent w <= sent (fst (makeRequest E a q w)) <= sent w + attempts a)%nat.
Proof.
  destruct (http_NewRequest E q) as [le |] eqn:Hnew.
  - rewrite (makeRequest_no_request E a q w le Hnew). simpl. lia.
  - destruct (makeRequest_loop_shape E a q Hnew
                (Z.to_nat (wrap64 (maxRetries a - 1))) (maxRetries a) w)
      as (n & Hn & _ & Hs).
    unfold makeRequest. rewrite Hs. unfold attempts. lia.
Qed.

Lemma sent_record_GetResults (q : string) (w : World) :
  sent (record (EvGetResults q) w) = sent w.
Proof.
  unfold sent, record. simpl. rewrite filter_app, length_app. simpl. lia.
Qed.

Lemma sent_record_RenewToken (w : World) :
  sent (record EvRenewToken w) = sent w.
Proof.
  unfold sent, record. simpl. rewrite filter_app, length_app. simpl. lia.
Qed.

Lemma getResults_error_kinds (E : Env) (a : API) (q : string) (w w' : World)
  (e : error) :
  getResults E a q w = (w', inl e) ->
  transport_error e \/ exists le, e = EnvelopeDecodeError le.
Proof.
  unfold getResults.
  destruct (makeRequest E a q (record (EvGetResults q) w)) as [w1 [e1 | resp]] eqn:Hreq.
  - intros H; inversion H; subst. left.
    apply (makeRequest_error_kinds E a q _ _ _ Hreq).
  - destruct (decode_APIResponse E (Body resp) zeroAPIResponse) as [r [le |]];
      intros H; inversion H; subst.
    right. exists le. reflexivity.
Qed.

(** X4: [getResults] returns an envelope only when its last request was
    answered 200 and the body of that answer decodes, and the envelope is
    what the decoder made of that body.  Its errors are those of the
    transport and, for a 200 whose body does not decode, the error of the
    decoder as it is. *)
Theorem getResults_outcome :
  forall (E : Env) (a : API) (q : string) (w w' : World)
         (out : error + APIResponse),
    getResults E a q w = (w', out) ->
    match out with
    | inr r =>
        exists resp,
          client_Do E (pred (sent w')) q = DoOk resp /\
          StatusCode resp = 200 /\
          decode_APIResponse E (Body resp) zeroAPIResponse = (r, None)
    | inl e =>
        transport_error e \/
        exists resp le,
          e = EnvelopeDecodeError le /\
          client_Do E (pred (sent w')) q = DoOk resp /\
          StatusCode resp = 200 /\
          snd (decode_APIResponse E (Body resp) zeroAPIResponse) = Some le
    end.
Proof.
  intros E a q w w' out. unfold getResults.
  destruct (makeRequest E a q (record (EvGetResults q) w)) as [w1 [e | resp]] eqn:Hreq.
  - intros H; inversion H; subst. left.
    apply (makeRequest_error_kinds E a q _ _ _ Hreq).
  - assert (Hlast : client_Do E (pred (sent w1)) q = DoOk resp /\ StatusCode resp = 200).
    { destruct (http_NewRequest E q) as [le |] eqn:Hnew.
      - rewrite (makeRequest_no_request E a q _ le Hnew) in Hreq. discriminate.
      - apply (makeRequest_run E a q _ _ _ Hnew Hreq). }
    destruct Hlast as [Hdo Hok].
    destruct (decode_APIResponse E (Body resp) zeroAPIResponse) as [r [le |]] eqn:Hdec;
      intros H; inversion H; subst.
    + right. exists resp, le. rewrite Hdec. repeat split; assumption.
    + exists resp. repeat split; assumption.
Qed.

Lemma getResults_outcome_witness :
  exists resp,
    client_Do (scripted [tooMany; ok200 "noresults"]) 1
              "q" = DoOk resp /\
    StatusCode resp = 200 /\
    decode_APIResponse (scripted [tooMany; ok200 "noresults"]) (Body resp)
                       zeroAPIResponse
      = (mkAPIResponse None "no results" 20, None).
Proof.
  apply (getResults_outcome (scripted [tooMany; ok200 "noresults"]) sample_api
           "q" world0
           {| clock := 2; trace := [EvGetResults "q"; EvDo "q"; EvSleep 0; EvDo "q"] |}
           (inr (mkAPIResponse None "no results" 20))).
  reflexivity.
Defined.

Lemma renewToken_expiry (E : Env) (a : API) (w w' : World) (token : Token) :
  renewToken E a w = (w', (token, None)) ->
  Token_Expires token = clock w' + tokenExpiration a.
Proof.
  unfold renewToken.
  destruct (makeRequest E a _ (record EvRenewToken w)) as [w1 [e | resp]];
    [discriminate |].
  destruct (decode_Token E (Body resp) (Token_Token zeroToken)) as [cred [le |]];
    intros H; inversion H; subst. reflexivity.
Qed.

(** X5: a renewal that succeeds asked the token endpoint of the configured
    URL, with the application identifier; its token holds the credential
    the decoder read from a 200 body and expires [tokenExpiration] after
    the clock reading at that point.  It comes back without a check: it is
    valid at that moment iff the credential is not empty and
    [tokenExpiration] is not negative. *)
Theorem renewToken_success :
  forall (E : Env) (a : API) (w w' : World) (token : Token),
    renewToken E a w = (w', (token, None)) ->
    let q := url a +++ "get_token=get_token&app_id=" +++ appID a in
    (exists evs,
       trace w' = trace w ++ EvRenewToken :: evs /\
       Forall (transport_event q) evs) /\
    (exists resp,
       client_Do E (pred (sent w')) q = DoOk resp /\
       StatusCode resp = 200 /\
       decode_Token E (Body resp) "" = (Token_Token token, None)) /\
    Token_Expires token = clock w' + tokenExpiration a /\
    (IsValid (clock w') token = true <->
       Token_Token token <> "" /\ 0 <= tokenExpiration a).
Proof.
  intros E a w w' token Hrenew q.
  split.
  { pose proof (renewToken_trace E a w) as Ht. rewrite Hrenew in Ht. exact Ht. }
  unfold renewToken in Hrenew. fold q in Hrenew.
  destruct (makeRequest E a q (record EvRenewToken w)) as [w1 [e | resp]] eqn:Hreq;
    [discriminate |].
  destruct (decode_Token E (Body resp) (Token_Token zeroToken)) as [cred [le |]] eqn:Hdec;
    [discriminate |].
  inversion Hrenew; subst. simpl.
  assert (Hlast : client_Do E (pred (sent w')) q = DoOk resp /\ StatusCode resp = 200).
  { destruct (http_NewRequest E q) as [le |] eqn:Hnew.
    - rewrite (makeRequest_no_request E a q _ le Hnew) in Hreq. discriminate.
    - apply (makeRequest_run E a q _ _ _ Hnew Hreq). }
  split; [exists resp; repeat split; try apply Hlast; exact Hdec |].
  split; [reflexivity |].
  rewrite IsValid_true_iff. simpl. split; intros [Hne Hle]; split; auto; lia.
Qed.

Lemma renewToken_success_witness :
  IsValid 1 (mkToken "some_token" (1 + DefaultTokenExpiration)) = true <->
  "some_token" <> "" /\ 0 <= DefaultTokenExpiration.
Proof.
  apply (renewToken_success (scripted [ok200 "some_token"]) sample_api world0
           {| clock := 1;
              trace := [EvRenewToken;
                        EvDo "http://127.0.0.1/?get_token=get_token&app_id=test"] |}
           (mkToken "some_token" (1 + DefaultTokenExpiration))).
  reflexivity.
Defined.

(** ** Construction *)

Lemma renewToken_error_kinds (E : Env) (a : API) (w w' : World) (token : Token)
  (e : error) :
  renewToken E a w = (w', (token, Some e)) ->
  transport_error e \/ exists le, e = TokenDecodeError le.
Proof.
  unfold renewToken.
  destruct (makeRequest E a _ (record EvRenewToken w)) as [w1 [e1 | resp]] eqn:Hreq.
  - intros H; inversion H; subst. left.
    apply (makeRequest_error_kinds E a _ _ _ _ Hreq).
  - destruct (decode_Token E (Body resp) (Token_Token zeroToken)) as [cred [le |]];
      intros H; inversion H; subst.
    right. exists le. reflexivity.
Qed.

Lemma options_fold (opts : list Option) :
  forall a : API,
    let a' := fold_left (fun a o => set o a) opts a in
    maxRetries a'
      = fold_left (fun r o => match o with MaxRetries r' => r' | _ => r end)
                  opts (maxRetries a) /\
    reqDelay a'
      = fold_left (fun d o => match o with RequestDelay d' => d' | _ => d end)
                  opts (reqDelay a) /\
    tokenExpiration a'
      = fold_left (fun d o => match o with TokenExpiration d' => d' | _ => d end)
                  opts (tokenExpiration a) /\
    url a'
      = fold_left (fun u o => match o with APIURL u' => u' | _ => u end)
                  opts (url a) /\
    appID a' = appID a /\ Query a' = Query a /\ categories a' = categories a.
Proof.
  induction opts as [| o opts IH]; intros a; simpl; [repeat split |].
  destruct (IH (set o a)) as (Hm & Hd & Ht & Hu & Hi & Hq & Hc).
  rewrite Hm, Hd, Ht, Hu, Hi, Hq, Hc. destruct o; repeat split.
Qed.

Lemma makeRequest_loop_config (E : Env) (fuel : nat) :
  forall (a b : API) (q : string) (m : Z) (w : World),
    reqDelay a = reqDelay b ->
    makeRequest_loop E fuel a q m w = makeRequest_loop E fuel b q m w.
Proof.
  induction fuel as [| fuel IH]; intros a b q m w Hd;
    rewrite (makeRequest_loop_step E a), (makeRequest_loop_step E b);
    [reflexivity |].
  destruct (http_NewRequest E q); [reflexivity |].
  destruct (client_Do E (sent w) q) as [e | r]; [reflexivity |].
  destruct (StatusCode r =? StatusOK); [reflexivity |].
  destruct (StatusCode r =? StatusTooManyRequests); [| reflexivity].
  destruct (wrap64 (m - 1) >? 0); [| reflexivity].
  rewrite Hd. apply IH. exact Hd.
Qed.

(** [renewToken] reads the configuration of its receiver only. *)
Lemma renewToken_config (E : Env) (a b : API) (w : World) :
  same_config a b -> renewToken E a w = renewToken E b w.
Proof.
  intros (Hi & Hd & Ht & Hu & Hm). unfold renewToken, makeRequest.
  rewrite Hi, Hu, Hm, Ht.
  rewrite (makeRequest_loop_config E _ a b _ _ _ Hd). reflexivity.
Qed.

(** X6: [New] asks for a token once and for nothing else.  When that
    succeeds, the client it returns has a URL that ends with a question
    mark, the given application identifier, an empty query, no categories
    and the token just fetched: the very token that [renewToken] returns for
    this client in the world [New] started in, which expires
    [tokenExpiration] after the clock reading at that point.  When it
    fails, the error wraps the error of the renewal, which came from the
    transport or from the decoder of the token. *)
Theorem New_postconditions :
  forall (E : Env) (id : string) (opts : list Option) (w w' : World)
         (out : error + API),
    New E id opts w = (w', out) ->
    calls_of (trace w') = calls_of (trace w) ++ [EvRenewToken] /\
    match out with
    | inr a =>
        HasSuffix (url a) "?" = true /\ appID a = id /\
        Query a = "" /\ categories a = [] /\
        Token_Expires (APIToken a) = clock w' + tokenExpiration a /\
        renewToken E a w = (w', (APIToken a, None))
    | inl e =>
        exists e0, e = RenewingError e0 /\
                   (transport_error e0 \/ exists le, e0 = TokenDecodeError le)
    end.
Proof.
  intros E id opts w w' out. unfold New.
  set (a0 := {| Query := ""; APIToken := zeroToken; categories := [];
                appID := id; reqDelay := DefaultRequestDelay;
                tokenExpiration := DefaultTokenExpiration;
                url := DefaultAPIURL; maxRetries := DefaultMaxRetries |}).
  destruct (options_fold opts a0) as (_ & _ & _ & _ & Hid & _ & _).
  set (a1 := fold_left (fun a o => set o a) opts a0) in *.
  set (a2 := if negb (HasSuffix (url a1) "?") then set_url a1 (url a1 +++ "?")
             else a1).
  assert (Hurl : HasSuffix (url a2) "?" = true).
  { unfold a2. destruct (HasSuffix (url a1) "?") eqn:Hs; simpl;
      [exact Hs | apply HasSuffix_append]. }
  assert (Hid2 : appID a2 = id /\ tokenExpiration a2 = tokenExpiration a1).
  { unfold a2. destruct (negb (HasSuffix (url a1) "?")); simpl; rewrite Hid; split; reflexivity. }
  pose proof (renewToken_calls E a2 w) as Hcalls.
  destruct (renewToken E a2 w) as [w1 [token [e |]]] eqn:Hrenew;
    intros H; inversion H; subst; simpl in Hcalls; (split; [exact Hcalls |]).
  - exists e. split; [reflexivity |].
    apply (renewToken_error_kinds E a2 w w' token e Hrenew).
  - pose proof (renewToken_expiry E a2 w w' token Hrenew) as Hexp.
    assert (Hsame : same_config (initQuery (set_APIToken a2 token)) a2)
      by (repeat split).
    rewrite (renewToken_config E _ a2 w Hsame).
    simpl. destruct Hid2 as [Hid2 Hte]. repeat split; assumption.
Qed.

Lemma New_postconditions_witness :
  exists a w',
    New (scripted [tooMany; ok200 "some_token"]) "test"
        [APIURL "http://127.0.0.1:8080"; RequestDelay 0] world0 = (w', inr a) /\
    url a = "http://127.0.0.1:8080?" /\
    APIToken a = mkToken "some_token" (2 + DefaultTokenExpiration) /\
    renewToken (scripted [tooMany; ok200 "some_token"]) a world0
      = (w', (APIToken a, None)) /\
    calls_of (trace w') = [EvRenewToken].
Proof.
  destruct (New (scripted [tooMany; ok200 "some_token"]) "test"
                [APIURL "http://127.0.0.1:8080"; RequestDelay 0] world0)
    as [w' [e | a]] eqn:Hnew; [vm_compute in Hnew; discriminate |].
  destruct (New_postconditions _ _ _ _ _ _ Hnew)
    as (Hcalls & _ & _ & _ & _ & _ & Hrenew).
  exists a, w'. split; [reflexivity |].
  vm_compute in Hnew. inversion Hnew; subst. clear Hnew.
  split; [reflexivity | split; [reflexivity | split; [exact Hrenew | exact Hcalls]]].
Defined.

(** X7: the options given to [New] are applied in the order given, and an
    option changes its own setting only: each setting of the client is the
    value of the last option of its kind, or the default when there is
    none; the URL then gets a question mark at its end unless it has one. *)
Theorem New_options :
  forall (E : Env) (id : string) (opts : list Option) (w w' : World) (a : API),
    New E id opts w = (w', inr a) ->
    maxRetries a
      = fold_left (fun r o => match o with MaxRetries r' => r' | _ => r end)
                  opts DefaultMaxRetries /\
    reqDelay a
      = fold_left (fun d o => match o with RequestDelay d' => d' | _ => d end)
                  opts DefaultRequestDelay /\
    tokenExpiration a
      = fold_left (fun d o => match o with TokenExpiration d' => d' | _ => d end)
                  opts DefaultTokenExpiration /\
    url a
      = (let u := fold_left (fun u o => match o with APIURL u' => u' | _ => u end)
                            opts DefaultAPIURL in
         if HasSuffix u "?" then u else u +++ "?").
Proof.
  intros E id opts w w' a. unfold New.
  set (a0 := {| Query := ""; APIToken := zeroToken; categories := [];
                appID := id; reqDelay := DefaultRequestDelay;
                tokenExpiration := DefaultTokenExpiration;
                url := DefaultAPIURL; maxRetries := DefaultMaxRetries |}).
  destruct (options_fold opts a0) as (Hm & Hd & Ht & Hu & _).
  set (a1 := fold_left (fun a o => set o a) opts a0) in *.
  simpl in Hm, Hd, Ht, Hu. rewrite <- Hm, <- Hd, <- Ht, <- Hu.
  destruct (HasSuffix (url a1) "?") eqn:Hs; simpl;
    match goal with |- context [renewToken E ?x w] =>
      destruct (renewToken E x w) as [w1 [token [e |]]] end;
    intros H; inversion H; subst; simpl; repeat split.
Qed.

Lemma New_options_witness :
  exists a w',
    New (scripted [ok200 "some_token"]) "cli"
        [MaxRetries 3; APIURL "http://example.org/api"; MaxRetries 5] world0
      = (w', inr a) /\
    maxRetries a = 5 /\ reqDelay a = DefaultRequestDelay /\
    url a = "http://example.org/api?".
Proof.
  destruct (New (scripted [ok200 "some_token"]) "cli"
                [MaxRetries 3; APIURL "http://example.org/api"; MaxRetries 5] world0)
    as [w' [e | a]] eqn:Hnew; [vm_compute in Hnew; discriminate |].
  destruct (New_options _ _ _ _ _ _ Hnew) as (Hm & Hd & _ & Hu).
  exists a, w'. split; [reflexivity |].
  split; [exact Hm | split; [exact Hd | exact Hu]].
Defined.

(** ** Token and interpreter, further *)

(** X8: validity only decays with time: a token valid at some instant was
    valid at every earlier one, and a token that is not valid stays so at
    every later one. *)
Theorem IsValid_decays :
  forall (t : Token) (now later : Z),
    now <= later ->
    (IsValid later t = true -> IsValid now t = true) /\
    (IsValid now t = false -> IsValid later t = false).
Proof.
  intros t now later Hle.
  assert (Hearlier : IsValid later t = true -> IsValid now t = true).
  { rewrite !IsValid_true_iff. intros [Hne Hexp]. split; [exact Hne | lia]. }
  split; [exact Hearlier |].
  intros Hnow. apply not_true_is_false. intros Hlater.
  rewrite (Hearlier Hlater) in Hnow. discriminate.
Qed.

Lemma IsValid_decays_witness :
  IsValid 50 (mkToken "test" 100) = true /\
  IsValid 500 (mkToken "test" 100) = false.
Proof.
  split.
  - apply (proj1 (IsValid_decays (mkToken "test" 100) 50 100 ltac:(lia))).
    reflexivity.
  - apply (proj2 (IsValid_decays (mkToken "test" 100) 101 500 ltac:(lia))).
    reflexivity.
Defined.

Lemma processResponse_payload_not_expired (E : Env) (a : API) (r : APIResponse)
  (raw : string) :
  Torrents r = Some raw ->
  forall s, snd (processResponse E a r) <> Some (expiredTokenError s).
Proof.
  intros Hraw s. rewrite (processResponse_payload E a r raw Hraw).
  destruct (json_Unmarshal E raw None) as [data [e |]]; discriminate.
Qed.

Lemma processResponse_no_text (E : Env) (a : API) (r : APIResponse) :
  Torrents r = None -> Error r = "" ->
  processResponse E a r = (None, Some (UnknownError (Query a) r)).
Proof.
  intros Hnil Herr. unfold processResponse. rewrite Hnil, Herr. reflexivity.
Qed.

Lemma processResponse_error_kinds (E : Env) (a : API) (r : APIResponse)
  (data : TorrentResults) (e : error) :
  processResponse E a r = (data, Some e) ->
  data = None /\
  ((exists q le, e = UnmarshalError q le) \/
   (exists q msg code,
      e = APIError q msg code /\ msg <> "" /\
      code <> tokenExpiredCode /\ code <> imdbNotFound /\ code <> noResultsCode) \/
   (exists q r', e = UnknownError q r' /\ Torrents r' = None /\ Error r' = "") \/
   e = expiredTokenError "expired token").
Proof.
  unfold processResponse.
  destruct (Torrents r) as [raw |] eqn:Hraw.
  - destruct (json_Unmarshal E raw None) as [d [le |]]; intros H; inversion H; subst.
    split; [reflexivity |]. left. eexists. eexists. reflexivity.
  - destruct (String.eqb_spec (Error r) "") as [Hnil | Hne]; simpl.
    + intros H; inversion H; subst. split; [reflexivity |].
      right; right; left. exists (Query a), r. repeat split; assumption.
    + destruct (Z.eqb_spec (ErrorCode r) tokenExpiredCode) as [H4 | H4];
        [intros H; inversion H; subst; split; [reflexivity |]; right; right; right; reflexivity |].
      destruct (Z.eqb_spec (ErrorCode r) imdbNotFound) as [H10 | H10]; [discriminate |].
      destruct (Z.eqb_spec (ErrorCode r) noResultsCode) as [H20 | H20]; [discriminate |].
      intros H; inversion H; subst. split; [reflexivity |].
      right; left. exists (Query a), (Error r), (ErrorCode r). repeat split; assumption.
Qed.

(** ** Call controller, further *)

(** X9: a payload decides alone.  When the first envelope holds a payload,
    [call] returns what the decoder makes of it and stops there, in the
    world the first [getResults] left: the error text and the error code of
    the envelope are not looked at, so not even code 4 starts a renewal. *)
Theorem call_payload_first :
  forall (E : Env) (a : API) (w : World) (a0 : API) (w0 w1 : World)
         (r : APIResponse) (raw : string),
    ensureToken E a w = (a0, w0, None) ->
    getResults E (finalizeCategories a0) (assemble (finalizeCategories a0)) w0
      = (w1, inr r) ->
    Torrents r = Some raw ->
    call E a w
      = (initQuery (finalizeCategories a0), w1,
         match json_Unmarshal E raw None with
         | (_, Some e) => (None, Some (UnmarshalError (Query (finalizeCategories a0)) e))
         | (data, None) => (data, None)
         end).
Proof.
  intros E a w a0 w0 w1 r raw Hens Hget Hraw.
  rewrite call_unfold, (call_body_first E a a0 w w0 w1 r Hens Hget).
  - simpl. rewrite (processResponse_payload E _ r raw Hraw). reflexivity.
  - apply (processResponse_payload_not_expired E _ r raw Hraw).
Qed.

Lemma call_payload_first_witness :
  call (scripted [ok200 "movie"; ok200 "some_token"; ok200 "empty"])
       sample_api world0
    = (initQuery sample_api,
       {| clock := 1;
          trace := [EvGetResults "http://127.0.0.1/?&token=test&mode=search&app_id=test";
                    EvDo "http://127.0.0.1/?&token=test&mode=search&app_id=test"] |},
       (Some [movie], None)).
Proof.
  apply (call_payload_first
           (scripted [ok200 "movie"; ok200 "some_token"; ok200 "empty"])
           sample_api world0 sample_api world0
           {| clock := 1;
              trace := [EvGetResults "http://127.0.0.1/?&token=test&mode=search&app_id=test";
                        EvDo "http://127.0.0.1/?&token=test&mode=search&app_id=test"] |}
           (mkAPIResponse (Some "[movie]") "" 0) "[movie]");
    reflexivity.
Defined.

(** X10: the codes count only next to an error text.  When the first
    envelope holds neither payload nor error text, [call] returns the
    unknown-envelope error and stops there, whatever the code: a code 4
    alone starts no renewal, a code 20 alone is not an empty result. *)
Theorem call_code_without_text :
  forall (E : Env) (a : API) (w : World) (a0 : API) (w0 w1 : World)
         (r : APIResponse),
    ensureToken E a w = (a0, w0, None) ->
    getResults E (finalizeCategories a0) (assemble (finalizeCategories a0)) w0
      = (w1, inr r) ->
    Torrents r = None -> Error r = "" ->
    call E a w
      = (initQuery (finalizeCategories a0), w1,
         (None, Some (UnknownError (Query (finalizeCategories a0)) r))).
Proof.
  intros E a w a0 w0 w1 r Hens Hget Hnil Herr.
  rewrite call_unfold, (call_body_first E a a0 w w0 w1 r Hens Hget);
    rewrite (processResponse_no_text E _ r Hnil Herr).
  - reflexivity.
  - intros s. discriminate.
Qed.

Lemma call_code_without_text_witness :
  snd (call (scripted [ok200 "bare"]) sample_api world0)
    = (None, Some (UnknownError "&mode=search" zeroAPIResponse)).
Proof.
  rewrite (call_code_without_text (scripted [ok200 "bare"]) sample_api world0
             sample_api world0
             {| clock := 1;
                trace := [EvGetResults "http://127.0.0.1/?&token=test&mode=search&app_id=test";
                          EvDo "http://127.0.0.1/?&token=test&mode=search&app_id=test"] |}
             zeroAPIResponse);
    reflexivity.
Defined.

Lemma same_config_refl (a : API) : same_config a a.
Proof. repeat split. Qed.

Lemma same_config_trans (a b c : API) :
  same_config a b -> same_config b c -> same_config a c.
Proof.
  unfold same_config. intros (H1 & H2 & H3 & H4 & H5) (K1 & K2 & K3 & K4 & K5).
  repeat split; congruence.
Qed.

Lemma finalizeCategories_config (a : API) : same_config (finalizeCategories a) a.
Proof.
  unfold finalizeCategories.
  destruct (0 <? List.length (categories a))%nat; repeat split.
Qed.

Lemma ensureToken_config (E : Env) (a a0 : API) (w w0 : World) (err : option error) :
  ensureToken E a w = (a0, w0, err) -> same_config a0 a.
Proof.
  intros H. destruct (ensureToken_cases E _ _ _ _ _ H)
    as [(_ & -> & _ & _) | (_ & token & _ & ->)]; repeat split.
Qed.

Lemma call_body_config (E : Env) (a : API) (w : World) :
  same_config (fst (fst (call_body E a w))) a.
Proof.
  destruct (call_body_path E a w)
    as [a0 w0 e Hens | a0 w0 w1 e Hens Hget | a0 w0 w1 r1 d err Hens Hget _ _
        | a0 w0 w1 w2 r1 token e Hens Hget _ Hrenew
        | a0 w0 w1 w2 w3 r1 token e Hens Hget _ Hrenew Hget2
        | a0 w0 w1 w2 w3 r1 r2 token Hens Hget _ Hrenew Hget2];
    pose proof (ensureToken_config E _ _ _ _ _ Hens) as Hc;
    pose proof (finalizeCategories_config a0) as Hf;
    unfold same_config in *; simpl;
    destruct Hc as (H1 & H2 & H3 & H4 & H5);
    destruct Hf as (K1 & K2 & K3 & K4 & K5);
    repeat split; congruence.
Qed.

Lemma call_config (E : Env) (a : API) (w : World) :
  same_config (fst (fst (call E a w))) a.
Proof.
  rewrite call_unfold. simpl.
  apply (same_config_trans _ (fst (fst (call_body E a w))));
    [repeat split | apply call_body_config].
Qed.

(** X11: [call], and so [Search] and [List], change the query state and the
    token only: the application identifier, the URL, the delay, the
    expiration window and the retry limit of the receiver are the same
    after the call, however it ends. *)
Theorem call_keeps_configuration :
  forall (E : Env) (a : API) (w : World),
    same_config (fst (fst (call E a w))) a /\
    same_config (fst (fst (Search E a w))) a /\
    same_config (fst (fst (List_ E a w))) a.
Proof.
  intros E a w. split; [apply call_config |].
  split; unfold Search, List_;
    (eapply same_config_trans; [apply call_config | repeat split]).
Qed.

(** X12: [call] never returns results together with an error: whenever the
    error is not nil, the result slice is nil. *)
Theorem call_error_means_no_results :
  forall (E : Env) (a : API) (w : World) (e : error),
    snd (snd (call E a w)) = Some e -> fst (snd (call E a w)) = None.
Proof.
  intros E a w e. rewrite call_unfold. simpl.
  destruct (call_body_path E a w)
    as [a0 w0 e' Hens | a0 w0 w1 e' Hens Hget | a0 w0 w1 r1 d err Hens Hget Hproc _
        | a0 w0 w1 w2 r1 token e' Hens Hget _ Hrenew
        | a0 w0 w1 w2 w3 r1 token e' Hens Hget _ Hrenew Hget2
        | a0 w0 w1 w2 w3 r1 r2 token Hens Hget _ Hrenew Hget2];
    simpl; try reflexivity.
  - intros ->. apply (processResponse_error_kinds E _ _ _ _ Hproc).
  - destruct (processResponse E (set_APIToken (finalizeCategories a0) token) r2)
      as [d err] eqn:Hproc. simpl. intros ->.
    apply (processResponse_error_kinds E _ _ _ _ Hproc).
Qed.

Lemma call_error_means_no_results_witness :
  fst (snd (call (scripted [ok200 "bad"]) sample_api world0)) = None.
Proof.
  apply (call_error_means_no_results (scripted [ok200 "bad"]) sample_api world0
           (UnmarshalError "&mode=search" "unexpected end of JSON input")).
  reflexivity.
Defined.

(** X13: every error [call] returns was built in one of these places: in
    the transport (request creation, client, status other than 200 and 429,
    attempts used up), in the decoder of the envelope or of the token, in
    the decoder of the payload, or in the interpreter.  An error of the
    service carries a non-empty message and a code that is none of 4, 10
    and 20; the error of [New] for a failed renewal is never among them. *)
Theorem call_errors :
  forall (E : Env) (a : API) (w : World) (e : error),
    snd (snd (call E a w)) = Some e ->
    call_error e /\ (forall e0, e <> RenewingError e0).
Proof.
  intros E a w e Hres.
  assert (Hkind : call_error e).
  { rewrite call_unfold in Hres. simpl in Hres.
    assert (Hrenew_kind : forall b v v' t e', renewToken E b v = (v', (t, Some e')) ->
              call_error e').
    { intros b v v' t e' H.
      destruct (renewToken_error_kinds E _ _ _ _ _ H) as [Ht | Hd];
        [left; exact Ht | right; right; left; exact Hd]. }
    assert (Hget_kind : forall b q v v' e', getResults E b q v = (v', inl e') ->
              call_error e').
    { intros b q v v' e' H.
      destruct (getResults_error_kinds E _ _ _ _ _ H) as [Ht | Hd];
        [left; exact Ht | right; left; exact Hd]. }
    assert (Hproc_kind : forall b r d e', processResponse E b r = (d, Some e') ->
              call_error e').
    { intros b r d e' H.
      destruct (processResponse_error_kinds E _ _ _ _ H) as (_ & [Hu | [Ha | [Hk | He]]]).
      - right; right; right; left; exact Hu.
      - right; right; right; right; left; exact Ha.
      - right; right; right; right; right; left; exact Hk.
      - right; right; right; right; right; right; exact He. }
    destruct (call_body_path E a w)
      as [a0 w0 e' Hens | a0 w0 w1 e' Hens Hget | a0 w0 w1 r1 d err Hens Hget Hproc _
          | a0 w0 w1 w2 r1 token e' Hens Hget _ Hrenew
          | a0 w0 w1 w2 w3 r1 token e' Hens Hget _ Hrenew Hget2
          | a0 w0 w1 w2 w3 r1 r2 token Hens Hget _ Hrenew Hget2];
      simpl in Hres.
    - inversion Hres; subst.
      destruct (ensureToken_cases E _ _ _ _ _ Hens)
        as [(_ & _ & _ & Hnone) | (_ & token & Hrenew & _)]; [discriminate |].
      apply (Hrenew_kind _ _ _ _ _ Hrenew).
    - inversion Hres; subst. apply (Hget_kind _ _ _ _ _ Hget).
    - subst err. apply (Hproc_kind _ _ _ _ Hproc).
    - inversion Hres; subst. apply (Hrenew_kind _ _ _ _ _ Hrenew).
    - inversion Hres; subst. apply (Hget_kind _ _ _ _ _ Hget2).
    - destruct (processResponse E (set_APIToken (finalizeCategories a0) token) r2)
        as [d err] eqn:Hproc. simpl in Hres. subst err.
      apply (Hproc_kind _ _ _ _ Hproc). }
  split; [exact Hkind |].
  intros e0 ->.
  destruct Hkind as [[(le & H) | [(le & H) | [H | (c & s & H & _)]]]
                    | [(le & H) | [(le & H) | [(q & le & H)
                    | [(q & m & c & H & _) | [(q & r & H & _) | H]]]]]];
    discriminate.
Qed.

Lemma call_errors_witness :
  call_error (APIError "&mode=search" "error" 5).
Proof.
  apply (call_errors (scripted [ok200 "failure"]) sample_api world0
           (APIError "&mode=search" "error" 5)).
  reflexivity.
Defined.

Lemma ensureToken_valid (E : Env) (a : API) (w : World) :
  IsValid (clock w) (APIToken a) = true -> ensureToken E a w = (a, w, None).
Proof.
  intros Hvalid. unfold ensureToken. rewrite Hvalid. reflexivity.
Qed.

(** X14: a token that is valid at entry is replaced only when the service
    says it has expired.  With a valid token, unless the first request
    brings an envelope that reports code 4, [call] asks for no token: the
    token it leaves is the one it found, and the one mark it adds to the
    trace is the [getResults] of the first request. *)
Theorem call_keeps_valid_token :
  forall (E : Env) (a : API) (w : World),
    IsValid (clock w) (APIToken a) = true ->
    (forall w1 r,
       getResults E (finalizeCategories a) (assemble (finalizeCategories a)) w
         = (w1, inr r) ->
       ~ error_envelope 4 r) ->
    APIToken (fst (fst (call E a w))) = APIToken a /\
    calls_of (trace (snd (fst (call E a w))))
      = calls_of (trace w) ++ [EvGetResults (assemble (finalizeCategories a))].
Proof.
  intros E a w Hvalid Hnot4.
  pose proof (ensureToken_valid E a w Hvalid) as Hens.
  pose proof (getResults_calls E (finalizeCategories a)
                (assemble (finalizeCategories a)) w) as Hcalls.
  destruct (finalizeCategories_fields a) as (_ & Htok & _ & _).
  rewrite call_unfold.
  destruct (getResults E (finalizeCategories a) (assemble (finalizeCategories a)) w)
    as [w1 [e | r]] eqn:Hget; simpl in Hcalls.
  - unfold call_body. rewrite Hens, Hget. simpl. split; assumption.
  - rewrite (call_body_first E a a w w w1 r Hens Hget).
    + simpl. split; assumption.
    + intros s Hexp.
      destruct (processResponse E (finalizeCategories a) r) as [d err] eqn:Hproc.
      simpl in Hexp. subst err.
      apply (Hnot4 w1 r eq_refl).
      apply (processResponse_expired_inv E _ _ _ _ Hproc).
Qed.

Lemma call_keeps_valid_token_witness :
  APIToken (fst (fst (call (scripted [ok200 "failure"; ok200 "some_token"])
                           sample_api world0)))
    = mkToken "test" 100 /\
  calls_of (trace (snd (fst (call (scripted [ok200 "failure"; ok200 "some_token"])
                                  sample_api world0))))
    = [EvGetResults "http://127.0.0.1/?&token=test&mode=search&app_id=test"].
Proof.
  apply (call_keeps_valid_token (scripted [ok200 "failure"; ok200 "some_token"])
           sample_api world0).
  - reflexivity.
  - intros w1 r Hget. vm_compute in Hget. inversion Hget; subst.
    intros (_ & _ & Hcode). discriminate.
Defined.

Lemma attempts_config (a b : API) : same_config a b -> attempts a = attempts b.
Proof.
  intros (_ & _ & _ & _ & Hm). unfold attempts. rewrite Hm. reflexivity.
Qed.

Lemma getResults_sent_bound (E : Env) (a : API) (q : string) (w : World) :
  (sent (fst (getResults E a q w)) <= sent w + attempts a)%nat.
Proof.
  unfold getResults.
  pose proof (makeRequest_sent_bound E a q (record (EvGetResults q) w)) as Hb.
  rewrite sent_record_GetResults in Hb.
  destruct (makeRequest E a q (record (EvGetResults q) w)) as [w1 [e | resp]];
    simpl in Hb; [simpl; lia |].
  destruct (decode_APIResponse E (Body resp) zeroAPIResponse) as [r [le |]];
    simpl; lia.
Qed.

Lemma renewToken_sent_bound (E : Env) (a : API) (w : World) :
  (sent (fst (renewToken E a w)) <= sent w + attempts a)%nat.
Proof.
  unfold renewToken.
  pose proof (makeRequest_sent_bound E a
                (url a +++ "get_token=get_token&app_id=" +++ appID a)
                (record EvRenewToken w)) as Hb.
  rewrite sent_record_RenewToken in Hb.
  destruct (makeRequest E a _ (record EvRenewToken w)) as [w1 [e | resp]];
    simpl in Hb; [simpl; lia |].
  destruct (decode_Token E (Body resp) (Token_Token zeroToken)) as [cred [le |]];
    simpl; lia.
Qed.

(** X15: one [call] sends a bounded number of requests, whatever the
    service answers: at most four rounds of the transport (a renewal at
    entry, the request, a renewal after code 4, the request again), each of
    at most [attempts a] requests. *)
Theorem call_sends_at_most_four_rounds :
  forall (E : Env) (a : API) (w : World),
    (sent (snd (fst (call E a w))) <= sent w + 4 * attempts a)%nat.
Proof.
  intros E a w. rewrite call_unfold. cbn [fst snd].
  assert (Hens_bound : forall a0 w0 err, ensureToken E a w = (a0, w0, err) ->
            (sent w0 <= sent w + attempts a)%nat).
  { intros a0 w0 err Hens.
    destruct (ensureToken_cases E _ _ _ _ _ Hens)
      as [(_ & _ & -> & _) | (_ & token & Hrenew & _)]; [lia |].
    pose proof (renewToken_sent_bound E a w) as Hb. rewrite Hrenew in Hb. exact Hb. }
  destruct (call_body_path E a w)
    as [a0 w0 e Hens | a0 w0 w1 e Hens Hget | a0 w0 w1 r1 d err Hens Hget _ _
        | a0 w0 w1 w2 r1 token e Hens Hget _ Hrenew
        | a0 w0 w1 w2 w3 r1 token e Hens Hget _ Hrenew Hget2
        | a0 w0 w1 w2 w3 r1 r2 token Hens Hget _ Hrenew Hget2];
    cbn [fst snd]; pose proof (Hens_bound _ _ _ Hens) as H0; [lia | ..];
    assert (Hatt : attempts (finalizeCategories a0) = attempts a)
      by (apply attempts_config;
          apply (same_config_trans _ a0);
          [apply finalizeCategories_config | apply (ensureToken_config E _ _ _ _ _ Hens)]);
    pose proof (getResults_sent_bound E (finalizeCategories a0)
                  (assemble (finalizeCategories a0)) w0) as H1;
    rewrite Hget, Hatt in H1; cbn [fst snd] in H1; try lia;
    pose proof (renewToken_sent_bound E (finalizeCategories a0) w1) as H2;
    rewrite Hrenew, Hatt in H2; cbn [fst snd] in H2; try lia;
    pose proof (getResults_sent_bound E (set_APIToken (finalizeCategories a0) token)
                  (assemble (finalizeCategories a0)) w2) as H3;
    rewrite Hget2 in H3; cbn [fst snd] in H3;
    change (attempts (set_APIToken (finalizeCategories a0) token))
      with (attempts (finalizeCategories a0)) in H3;
    rewrite Hatt in H3; lia.
Qed.

(** ** Terminal operations *)

(** The first request of [Search], for a receiver without categories. *)
Lemma Search_first_request (E : Env) (b a0 : API) (w w0 : World) :
  categories b = [] ->
  ensureToken E (set_Query b (Query b +++ "&mode=search")) w = (a0, w0, None) ->
  exists rest,
    trace (snd (fst (Search E b w)))
      = trace w0
          ++ EvGetResults (url b +++ "&token=" +++ Token_Token (APIToken a0)
                             +++ (Query b +++ "&mode=search")
                             +++ "&app_id=" +++ appID b) :: rest.
Proof.
  intros Hcat Hens. unfold Search. rewrite call_unfold. cbn [fst snd].
  destruct (call_body_first_request E _ a0 w w0 Hens) as (rest & Ht).
  exists rest. rewrite Ht.
  destruct (ensureToken_fields E _ _ _ _ _ Hens) as (HQ & Hc & Hu & Hi).
  simpl in HQ, Hc, Hu, Hi. rewrite Hcat in Hc.
  destruct (finalizeCategories_fields a0) as (Hu' & Ht' & Hi' & _).
  unfold assemble. rewrite Hu', Ht', Hi', finalizeCategories_Query, Hc, HQ, Hu, Hi.
  reflexivity.
Qed.

(** X16: nothing of an earlier call leaks into the next one.  After a
    [call], however it ended, a search configured with a new search string
    sends a request whose query holds that string and the mode marker and
    nothing else, between the token and the application identifier. *)
Theorem Search_after_call_is_fresh :
  forall (E : Env) (a : API) (w : World) (v : string) (a0 : API) (w0 : World),
    let a1 := fst (fst (call E a w)) in
    let w1 := snd (fst (call E a w)) in
    ensureToken E (set_Query (SearchString E a1 v)
                             (Query (SearchString E a1 v) +++ "&mode=search")) w1
      = (a0, w0, None) ->
    exists rest,
      trace (snd (fst (Search E (SearchString E a1 v) w1)))
        = trace w0
            ++ EvGetResults
                 (url a +++ "&token=" +++ Token_Token (APIToken a0)
                    +++ (("&search_string=" +++ url_QueryEscape E v)
                           +++ "&mode=search")
                    +++ "&app_id=" +++ appID a) :: rest.
Proof.
  intros E a w v a0 w0 a1 w1 Hens.
  destruct (call_config E a w) as (Hi & _ & _ & Hu & _).
  fold a1 in Hi, Hu.
  assert (Hq : Query a1 = "" /\ categories a1 = []).
  { unfold a1. rewrite call_unfold. split; reflexivity. }
  destruct Hq as [Hq Hc].
  destruct (Search_first_request E (SearchString E a1 v) a0 w1 w0) as (rest & Ht);
    [exact Hc | exact Hens |].
  exists rest. rewrite Ht. unfold SearchString. simpl.
  rewrite Hq, Hu, Hi. reflexivity.
Qed.

Lemma Search_after_call_is_fresh_witness :
  exists rest,
    trace (snd (fst
      (Search (scripted [error500; ok200 "movie"])
         (SearchString (scripted [error500; ok200 "movie"])
            (fst (fst (call (scripted [error500; ok200 "movie"])
                            (Category (Limit sample_api 25) 18) world0)))
            "new")
         (snd (fst (call (scripted [error500; ok200 "movie"])
                         (Category (Limit sample_api 25) 18) world0))))))
      = [EvGetResults
           "http://127.0.0.1/?&token=test&mode=search&limit=25&category=18&app_id=test";
         EvDo "http://127.0.0.1/?&token=test&mode=search&limit=25&category=18&app_id=test"]
          ++ EvGetResults
               "http://127.0.0.1/?&token=test&search_string=new&mode=search&app_id=test"
               :: rest.
Proof.
  edestruct (Search_after_call_is_fresh (scripted [error500; ok200 "movie"])
               (Category (Limit sample_api 25) 18) world0 "new")
    as [rest Hrest]; [reflexivity |].
  exists rest. exact Hrest.
Defined.

(** X17: chained operations reach the service in the order of the chain.
    For the chain of the command-line tool ([Ranked], [Sort], [Format],
    [Limit], then [Search]) on a receiver without categories, the request
    is the URL, the token, the query the receiver had, the four parameters
    in that order, the mode marker and the application identifier. *)
Theorem chain_order_reaches_the_service :
  forall (E : Env) (a : API) (w : World) (ranked : bool) (sort format : string)
         (limit : Z) (a0 : API) (w0 : World),
    let b := Limit (Format (Sort (Ranked a ranked) sort) format) limit in
    categories a = [] ->
    ensureToken E (set_Query b (Query b +++ "&mode=search")) w = (a0, w0, None) ->
    exists rest,
      trace (snd (fst (Search E b w)))
        = trace w0
            ++ EvGetResults
                 (url a +++ "&token=" +++ Token_Token (APIToken a0) +++ Query a
                    +++ (if ranked then "&ranked=1" else "&ranked=0")
                    +++ "&sort=" +++ sort +++ "&format=" +++ format
                    +++ "&limit=" +++ Itoa limit
                    +++ "&mode=search" +++ "&app_id=" +++ appID a) :: rest.
Proof.
  intros E a w ranked sort format limit a0 w0 b Hcat Hens.
  destruct (Search_first_request E b a0 w w0) as (rest & Ht);
    [unfold b; destruct ranked; exact Hcat | exact Hens |].
  exists rest. rewrite Ht. unfold b.
  destruct ranked; simpl; rewrite !str_append_assoc; reflexivity.
Qed.

Lemma chain_order_reaches_the_service_witness :
  exists rest,
    trace (snd (fst
      (Search (scripted [ok200 "movie"])
         (Limit (Format (Sort (Ranked (initQuery sample_api) true) "seeders")
                        "json_extended") 25)
         world0)))
      = EvGetResults
          ("http://127.0.0.1/?&token=test&ranked=1&sort=seeders"
             +++ "&format=json_extended&limit=25&mode=search&app_id=test")
          :: rest.
Proof.
  edestruct (chain_order_reaches_the_service (scripted [ok200 "movie"])
               (initQuery sample_api) world0 true "seeders" "json_extended" 25)
    as [rest Hrest]; [reflexivity | reflexivity |].
  exists rest. exact Hrest.
Defined.

(** ** The superseded client *)

Section LegacyCall.

Variable S : Type.
Variable time_Now : S -> Z.
Variable time_Sleep : Z -> S -> S.
Variable getRes : string -> S -> S * (Legacy.error + APIResponse).
Variable renewToken : S -> S * (Token * option Legacy.error).
Variable apiurl : string.
Variable json_Unmarshal : string -> TorrentResults -> TorrentResults * option lib_error.






End LegacyCall.


